(** * Reservation queue of the shop backend (QueueService)

    A shallow embedding of the class [QueueService] (the in-memory
    reservation queue in front of the product stock) and the properties
    of its operations: [joinQueue], [leaveQueue],
    [processSuccessfulPayment], [getQueueStatus] and the periodic
    [cleanupExpiredItems].

    Modelling choices.
    - JavaScript numbers that the service handles (stock, quantities,
      clock readings in milliseconds, positions) are integers; they are
      modelled in [Z].
    - [productQueues] is a JavaScript [Map]; iteration follows insertion
      order, so it is an association list with the [Map] operations
      written out ([Map_get], [Map_set], [Map_delete]).
    - [userQueues] is a [Map<string, Set<string>>] that is only probed,
      never iterated by the operations below: a [gmap] of [gset]s.
    - [productModel] is the product collection; only the [stock] field
      is read or written, so it is a [gmap] from product id to stock.
      [updateOne] on a missing id changes nothing ([alter]).
    - [eventEmitter.emit] is modelled by the list of events an operation
      returns, in emission order.  Logger calls have no effect on the
      state and are left out.
    - [Date.now()] and [Math.random()] are inputs of the operation that
      reads them.
    - The persistence calls are total here, so the [catch] branches of
      the operations are never taken. *)

From stdpp Require Import gmap strings list pretty.

Local Open Scope Z_scope.

(** ** JavaScript [Map] with string keys, in insertion order *)

Section JsMap.
Context {V : Type}.

Fixpoint Map_get (k : string) (m : list (string * V)) : option V :=
  match m with
  | [] => None
  | (k', v) :: m' => if decide (k' = k) then Some v else Map_get k m'
  end.

(** [set] overwrites in place when the key is present and appends a
    new entry otherwise. *)
Fixpoint Map_set (k : string) (v : V) (m : list (string * V)) : list (string * V) :=
  match m with
  | [] => [(k, v)]
  | (k', v') :: m' =>
      if decide (k' = k) then (k, v) :: m' else (k', v') :: Map_set k v m'
  end.

Definition Map_delete (k : string) (m : list (string * V)) : list (string * V) :=
  filter (λ kv, kv.1 ≠ k) m.
End JsMap.

(** ** Data model *)

Module QueueItem.
Record t := mk {
  id : string;
  userId : string;
  productId : string;
  quantity : Z;
  timestamp : Z;
  expiresAt : Z;
  userEmail : string;
  userName : string;
  reservedUntil : Z
}.
End QueueItem.

Module ProductQueue.
Record t := mk {
  productId : string;
  maxQueueSize : Z;
  items : list QueueItem.t;
  processingTimeout : Z;
  isActive : bool
}.

(** The queue object after its [items] array was mutated in place. *)
Definition with_items (q : t) (l : list QueueItem.t) : t :=
  mk (productId q) (maxQueueSize q) l (processingTimeout q) (isActive q).
End ProductQueue.

Record QueueService := mkService {
  productQueues : list (string * ProductQueue.t);
  userQueues : gmap string (gset string);
  productModel : gmap string Z
}.

Definition set_productQueues (m : list (string * ProductQueue.t)) (s : QueueService) : QueueService :=
  mkService m (userQueues s) (productModel s).

Definition set_userQueues (u : gmap string (gset string)) (s : QueueService) : QueueService :=
  mkService (productQueues s) u (productModel s).

Definition set_productModel (d : gmap string Z) (s : QueueService) : QueueService :=
  mkService (productQueues s) (userQueues s) d.

Inductive Event :=
| queue_joined (userId productId queueId : string) (position : Z)
| queue_left (userId productId queueId reason : string)
| queue_timeout (userId productId queueId : string)
| queue_position_updated (userId productId queueId : string)
    (newPosition estimatedWaitTime : Z)
| payment_processed (userId productId : string) (quantity : Z).

#[global] Instance Event_eq_dec : EqDecision Event.
Proof. solve_decision. Defined.

(** The object [joinQueue] resolves to. *)
Record JoinResult := mkJoinResult {
  success : bool;
  position : option Z;
  estimatedWaitTime : option Z;
  queueId : option string;
  message : string
}.

Definition failure (msg : string) : JoinResult :=
  mkJoinResult false None None None msg.

Definition NotFound : JoinResult := failure "Product not found".
Definition InsufficientStock : JoinResult := failure "Insufficient stock available".
Definition AlreadyQueued : JoinResult :=
  failure "You are already in queue for this product".
Definition QueueFull : JoinResult :=
  failure "Product is currently unavailable due to high demand. Please try again later.".

(** What [joinQueue] reads from its environment: the id returned by
    [generateQueueId] and the three [Date.now()] readings of the item
    literal. *)
Record JoinEnv := mkJoinEnv {
  generateQueueId : string;
  now_timestamp : Z;
  now_expiresAt : Z;
  now_reservedUntil : Z
}.

(** The object [getQueueStatus] returns. *)
Record QueueStatus := mkQueueStatus {
  inQueue : bool;
  status_position : option Z;
  status_estimatedWaitTime : option Z;
  status_expiresAt : option Z
}.

(** ** Constants *)

Definition DEFAULT_QUEUE_SIZE : Z := 10.
Definition DEFAULT_TIMEOUT : Z := 15 * 60 * 1000.
Definition LOW_STOCK_THRESHOLD : Z := 5.

(** ** Private helpers *)

Definition initializeProductQueue (productId : string) (stock : Z) (s : QueueService)
  : ProductQueue.t * QueueService :=
  let maxQueueSize := Z.min DEFAULT_QUEUE_SIZE (stock * 2) in
  let productQueue :=
    ProductQueue.mk productId maxQueueSize [] DEFAULT_TIMEOUT true in
  (productQueue, set_productQueues (Map_set productId productQueue (productQueues s)) s).

Definition isUserInQueue (userId productId : string) (s : QueueService) : bool :=
  match userQueues s !! userId with
  | Some userQueues => bool_decide (productId ∈ userQueues)
  | None => false
  end.

Definition calculateEstimatedWaitTime (position : Z) : Z :=
  position * 2 * 60 * 1000.

Definition reserveStock (productId : string) (quantity : Z) (s : QueueService) : QueueService :=
  set_productModel (alter (λ stock, stock + - quantity) productId (productModel s)) s.

Definition releaseReservedStock (productId : string) (quantity : Z) (s : QueueService) : QueueService :=
  set_productModel (alter (λ stock, stock + quantity) productId (productModel s)) s.

(** The body of [updateActualStock] is empty. *)
Definition updateActualStock (productId : string) (quantity : Z) (s : QueueService) : QueueService :=
  s.

(** [markProductUnavailable] and [checkProductAvailability] only log. *)
Definition markProductUnavailable (productId : string) (s : QueueService) : QueueService :=
  s.

Definition checkProductAvailability (productId : string) (s : QueueService) : QueueService :=
  s.

Definition updateQueuePositions (productQueue : ProductQueue.t) : list Event :=
  imap (λ index item,
          queue_position_updated (QueueItem.userId item) (QueueItem.productId item)
            (QueueItem.id item) (Z.of_nat index + 1)
            (calculateEstimatedWaitTime (Z.of_nat index + 1)))
       (ProductQueue.items productQueue).

(** [userQueues.get(userId).add(productId)], creating the set first
    when the user has none. *)
Definition addUserQueue (userId productId : string) (s : QueueService) : QueueService :=
  let u :=
    match userQueues s !! userId with
    | Some _ => userQueues s
    | None => <[userId := ∅]> (userQueues s)
    end in
  set_userQueues (alter (λ userQueues, userQueues ∪ {[productId]}) userId u) s.

(** The block shared by [leaveQueue] and [cleanupExpiredItems]: delete
    the product from the user's set and drop the user once the set is
    empty. *)
Definition userQueues_delete (userId productId : string)
    (u : gmap string (gset string)) : gmap string (gset string) :=
  match u !! userId with
  | Some userQueues0 =>
      let userQueues1 := userQueues0 ∖ {[productId]} in
      if decide (size userQueues1 = 0%nat)
      then delete userId u
      else <[userId := userQueues1]> u
  | None => u
  end.

Definition removeUserQueue (userId productId : string) (s : QueueService) : QueueService :=
  set_userQueues (userQueues_delete userId productId (userQueues s)) s.

(** ** Public operations *)

Definition joinQueue (env : JoinEnv) (userId productId : string) (quantity : Z)
    (userEmail userName : string) (s : QueueService)
  : JoinResult * QueueService * list Event :=
  match productModel s !! productId with
  | None => (NotFound, s, [])
  | Some stock =>
      if decide (stock < quantity) then (InsufficientStock, s, [])
      else if isUserInQueue userId productId s then (AlreadyQueued, s, [])
      else
        let '(productQueue, s1) :=
          match Map_get productId (productQueues s) with
          | Some q => (q, s)
          | None => initializeProductQueue productId stock s
          end in
        if decide (ProductQueue.maxQueueSize productQueue
                   ≤ Z.of_nat (length (ProductQueue.items productQueue)))
        then (QueueFull, markProductUnavailable productId s1, [])
        else
          let queueId := generateQueueId env in
          let queueItem :=
            QueueItem.mk queueId userId productId quantity
              (now_timestamp env)
              (now_expiresAt env + ProductQueue.processingTimeout productQueue)
              userEmail userName
              (now_reservedUntil env + ProductQueue.processingTimeout productQueue) in
          let productQueue' :=
            ProductQueue.with_items productQueue
              (ProductQueue.items productQueue ++ [queueItem]) in
          let s2 :=
            set_productQueues (Map_set productId productQueue' (productQueues s1)) s1 in
          let s3 := addUserQueue userId productId s2 in
          let s4 := reserveStock productId quantity s3 in
          let position := Z.of_nat (length (ProductQueue.items productQueue')) in
          (mkJoinResult true (Some position)
             (Some (calculateEstimatedWaitTime position))
             (Some queueId) "Successfully joined the queue",
           s4,
           [queue_joined userId productId queueId position])
  end.

(** The predicate of [findIndex] in [leaveQueue].  [!queueId] holds for
    an absent argument and for the empty string. *)
Definition leave_matches (userId : string) (queueId : option string) (item : QueueItem.t) : Prop :=
  QueueItem.userId item = userId
  ∧ match queueId with
    | None => True
    | Some q => q = "" ∨ QueueItem.id item = q
    end.

#[global] Instance leave_matches_dec userId queueId item :
  Decision (leave_matches userId queueId item).
Proof. unfold leave_matches. destruct queueId; apply _. Defined.

Definition leaveQueue (userId productId : string) (queueId : option string)
    (s : QueueService) : bool * QueueService * list Event :=
  match Map_get productId (productQueues s) with
  | None => (false, s, [])
  | Some productQueue =>
      match list_find (leave_matches userId queueId) (ProductQueue.items productQueue) with
      | None => (false, s, [])
      | Some (itemIndex, removedItem) =>
          let productQueue' :=
            ProductQueue.with_items productQueue
              (delete itemIndex (ProductQueue.items productQueue)) in
          let s1 :=
            set_productQueues (Map_set productId productQueue' (productQueues s)) s in
          let s2 := releaseReservedStock productId (QueueItem.quantity removedItem) s1 in
          let s3 := removeUserQueue userId productId s2 in
          let s4 := checkProductAvailability productId s3 in
          (true, s4,
           updateQueuePositions productQueue'
             ++ [queue_left userId productId (QueueItem.id removedItem) "manual"])
      end
  end.

Definition processSuccessfulPayment (userId productId : string) (quantity : Z)
    (s : QueueService) : bool * QueueService * list Event :=
  let '(_, s1, evs) := leaveQueue userId productId None s in
  let s2 := updateActualStock productId quantity s1 in
  (true, s2, evs ++ [payment_processed userId productId quantity]).

Definition getQueueStatus (userId productId : string) (s : QueueService) : QueueStatus :=
  match Map_get productId (productQueues s) with
  | None => mkQueueStatus false None None None
  | Some productQueue =>
      match list_find (λ item, QueueItem.userId item = userId)
                      (ProductQueue.items productQueue) with
      | None => mkQueueStatus false None None None
      | Some (index, queueItem) =>
          let position := Z.of_nat index + 1 in
          mkQueueStatus true (Some position)
            (Some (calculateEstimatedWaitTime position))
            (Some (QueueItem.expiresAt queueItem))
      end
  end.

Definition shouldActivateQueue (productId : string) (s : QueueService) : bool :=
  match productModel s !! productId with
  | Some stock => bool_decide (stock ≤ LOW_STOCK_THRESHOLD)
  | None => false
  end.

(** The filter of the sweep, [item.expiresAt <= now], and its
    complement. *)
Definition expired (now : Z) (item : QueueItem.t) : Prop :=
  QueueItem.expiresAt item ≤ now.

Definition live (now : Z) (item : QueueItem.t) : Prop :=
  now < QueueItem.expiresAt item.

#[global] Instance expired_dec now item : Decision (expired now item).
Proof. unfold expired. apply _. Defined.

#[global] Instance live_dec now item : Decision (live now item).
Proof. unfold live. apply _. Defined.

(** One iteration of the inner loop of [cleanupExpiredItems].  The
    loop state is the [items] array of the queue being swept (mutated in
    place by [splice]), the service, and the events emitted so far. *)
Definition expire_item (productId : string)
    (st : list QueueItem.t * QueueService * list Event) (expiredItem : QueueItem.t)
  : list QueueItem.t * QueueService * list Event :=
  let '(items, s, evs) := st in
  match list_find (λ item, QueueItem.id item = QueueItem.id expiredItem) items with
  | Some (itemIndex, _) =>
      (delete itemIndex items,
       removeUserQueue (QueueItem.userId expiredItem) productId
         (releaseReservedStock productId (QueueItem.quantity expiredItem) s),
       evs ++ [queue_timeout (QueueItem.userId expiredItem) productId
                 (QueueItem.id expiredItem)])
  | None => st
  end.

(** The body of the outer loop, for one entry of [productQueues]. *)
Definition cleanup_queue (now : Z) (acc : QueueService * list Event)
    (entry : string * ProductQueue.t) : QueueService * list Event :=
  let '(s, evs) := acc in
  let '(productId, productQueue) := entry in
  let expiredItems := filter (expired now) (ProductQueue.items productQueue) in
  let '(items', s1, evs1) :=
    foldl (expire_item productId) (ProductQueue.items productQueue, s, evs) expiredItems in
  let productQueue' := ProductQueue.with_items productQueue items' in
  let s2 := set_productQueues (Map_set productId productQueue' (productQueues s1)) s1 in
  let '(s3, evs3) :=
    if decide (0 < length expiredItems)%nat
    then (checkProductAvailability productId s2, evs1 ++ updateQueuePositions productQueue')
    else (s2, evs1) in
  if decide (length items' = 0%nat)
  then (set_productQueues (Map_delete productId (productQueues s3)) s3, evs3)
  else (s3, evs3).

Definition cleanupExpiredItems (now : Z) (s : QueueService) : QueueService * list Event :=
  foldl (cleanup_queue now) (s, []) (productQueues s).

(** ** Views of the state used in the statements *)

(** The FIFO of a product: the [items] of its queue record, empty when
    the product has no record. *)
Definition queue_items (s : QueueService) (productId : string) : list QueueItem.t :=
  match Map_get productId (productQueues s) with
  | Some q => ProductQueue.items q
  | None => []
  end.

Definition total_quantity (l : list QueueItem.t) : Z :=
  foldr (λ item acc, QueueItem.quantity item + acc) 0 l.

(** Sum of the quantities of the pending entries of a product. *)
Definition reserved_total (s : QueueService) (productId : string) : Z :=
  total_quantity (queue_items s productId).

(** The user holds an entry in the FIFO of the product. *)
Definition has_entry (s : QueueService) (userId productId : string) : Prop :=
  ∃ item, item ∈ queue_items s productId ∧ QueueItem.userId item = userId.

(** The queue record of the product exists and holds [maxQueueSize]
    entries or more. *)
Definition at_capacity (s : QueueService) (productId : string) : Prop :=
  ∃ q, Map_get productId (productQueues s) = Some q
       ∧ ProductQueue.maxQueueSize q ≤ Z.of_nat (length (ProductQueue.items q)).

(** Consistency of the in-memory state: keys of the queue table are
    distinct (it is a [Map]), reservation ids and users are distinct
    within a FIFO, and the reverse index is the projection of the
    memberships. *)
Record wf (s : QueueService) : Prop := mk_wf {
  wf_keys : NoDup (productQueues s).*1;
  wf_ids : ∀ p, NoDup (QueueItem.id <$> queue_items s p);
  wf_users : ∀ p, NoDup (QueueItem.userId <$> queue_items s p);
  wf_index : ∀ u p, isUserInQueue u p s = true ↔ has_entry s u p
}.

(** The operations of the service, as issued by its callers and by the
    scheduler. *)
Inductive Op :=
| op_join (env : JoinEnv) (userId productId : string) (quantity : Z)
    (userEmail userName : string)
| op_leave (userId productId : string) (queueId : option string)
| op_payment (userId productId : string) (quantity : Z)
| op_sweep (now : Z).

Definition exec (op : Op) (s : QueueService) : QueueService * list Event :=
  match op with
  | op_join env u p q email name =>
      let '(_, s', evs) := joinQueue env u p q email name s in (s', evs)
  | op_leave u p qid => let '(_, s', evs) := leaveQueue u p qid s in (s', evs)
  | op_payment u p q => let '(_, s', evs) := processSuccessfulPayment u p q s in (s', evs)
  | op_sweep now => cleanupExpiredItems now s
  end.

(** [generateQueueId] draws a timestamp and a random suffix; an
    operation is admissible when a join's id is new in the FIFO it
    enters. *)
Definition fresh_id (op : Op) (s : QueueService) : Prop :=
  match op with
  | op_join env _ p _ _ _ =>
      generateQueueId env ∉ (QueueItem.id <$> queue_items s p)
  | _ => True
  end.

(** The conservation invariant against a reference stock [truth]. *)
Definition conserved (truth : string → Z) (s : QueueService) : Prop :=
  ∀ p stock, productModel s !! p = Some stock →
             reserved_total s p + stock = truth p.

(** The queue record a join works on: the product's record, or the
    one [initializeProductQueue] creates from the stock just read. *)
Definition target_queue (s : QueueService) (productId : string) (stock : Z) : ProductQueue.t :=
  match Map_get productId (productQueues s) with
  | Some q => q
  | None => (initializeProductQueue productId stock s).1
  end.

(** The hold duration a join applies, [processingTimeout] of the
    record it works on. *)
Definition holdDuration (s : QueueService) (productId : string) : Z :=
  ProductQueue.processingTimeout (target_queue s productId 0).

(** The entry a join creates. *)
Definition new_item (env : JoinEnv) (userId productId : string) (quantity : Z)
    (userEmail userName : string) (s : QueueService) : QueueItem.t :=
  QueueItem.mk (generateQueueId env) userId productId quantity
    (now_timestamp env) (now_expiresAt env + holdDuration s productId)
    userEmail userName (now_reservedUntil env + holdDuration s productId).

(** ** A running scenario

    One product [R] with stock 3; user [A] joins for 2 units at clock
    reading 100. *)

Definition shop0 : QueueService := mkService [] ∅ {["R" := 3]}.

Definition envA : JoinEnv := mkJoinEnv "q1" 100 100 100.

Definition itemA : QueueItem.t :=
  QueueItem.mk "q1" "A" "R" 2 100 900100 "a@shop" "A" 900100.

Definition queueR : ProductQueue.t := ProductQueue.mk "R" 6 [itemA] 900000 true.

Definition shop1 : QueueService :=
  (joinQueue envA "A" "R" 2 "a@shop" "A" shop0).1.2.

(** The reference stock of the scenario: the stock of [shop0], where
    nothing is held. *)
Definition truth0 (p : string) : Z := default 0 (productModel shop0 !! p).

(** Ten users join for one unit each while the stock of [R] is 10;
    the record is created with capacity [min 10 20] and ends full, with
    the stock at 0. *)
Definition join_all (users : list (string * string)) (s : QueueService) : QueueService :=
  foldl (λ s user,
           (joinQueue (mkJoinEnv user.2 100 100 100) user.1 "R" 1 "u@shop" user.1 s).1.2)
        s users.

Definition shop_full : QueueService :=
  join_all [("U0", "r0"); ("U1", "r1"); ("U2", "r2"); ("U3", "r3"); ("U4", "r4");
            ("U5", "r5"); ("U6", "r6"); ("U7", "r7"); ("U8", "r8"); ("U9", "r9")]
    (mkService [] ∅ {["R" := 10]}).

(** ** Closed forms of the operations

    The states and event lists the operations produce, written without
    the control flow; the lemmas below show that the operations compute
    them. *)

(** Membership in the reverse index. *)
Definition in_index (uq : gmap string (gset string)) (u p : string) : Prop :=
  ∃ S, uq !! u = Some S ∧ p ∈ S.

(** The state after a join that was admitted. *)
Definition joined (env : JoinEnv) (u p : string) (qty : Z) (email name : string)
    (stock : Z) (s : QueueService) : QueueService :=
  mkService
    (Map_set p
       (ProductQueue.with_items (target_queue s p stock)
          (queue_items s p ++ [new_item env u p qty email name s]))
       (productQueues s))
    (userQueues (addUserQueue u p s))
    (alter (λ st, st + - qty) p (productModel s)).

(** The state after a join that was turned away at the capacity check:
    the record exists, created empty when it did not. *)
Definition turned_away (p : string) (stock : Z) (s : QueueService) : QueueService :=
  set_productQueues (Map_set p (target_queue s p stock) (productQueues s)) s.

(** The five ways [joinQueue] can go. *)
Inductive join_case (env : JoinEnv) (u p : string) (qty : Z) (email name : string)
    (s : QueueService) : JoinResult * QueueService * list Event → Prop :=
| join_not_found :
    productModel s !! p = None →
    join_case env u p qty email name s (NotFound, s, [])
| join_insufficient stock :
    productModel s !! p = Some stock → stock < qty →
    join_case env u p qty email name s (InsufficientStock, s, [])
| join_already stock :
    productModel s !! p = Some stock → qty ≤ stock →
    isUserInQueue u p s = true →
    join_case env u p qty email name s (AlreadyQueued, s, [])
| join_full stock :
    productModel s !! p = Some stock → qty ≤ stock →
    isUserInQueue u p s = false →
    ProductQueue.maxQueueSize (target_queue s p stock)
      ≤ Z.of_nat (length (queue_items s p)) →
    join_case env u p qty email name s (QueueFull, turned_away p stock s, [])
| join_admitted stock :
    productModel s !! p = Some stock → qty ≤ stock →
    isUserInQueue u p s = false →
    Z.of_nat (length (queue_items s p))
      < ProductQueue.maxQueueSize (target_queue s p stock) →
    let pos := Z.of_nat (length (queue_items s p)) + 1 in
    join_case env u p qty email name s
      (mkJoinResult true (Some pos) (Some (calculateEstimatedWaitTime pos))
         (Some (generateQueueId env)) "Successfully joined the queue",
       joined env u p qty email name stock s,
       [queue_joined u p (generateQueueId env) pos]).

(** The state after a leave that removed entry [e] at index [i] of the
    record [q]. *)
Definition left_state (u p : string) (i : nat) (e : QueueItem.t) (q : ProductQueue.t)
    (s : QueueService) : QueueService :=
  mkService
    (Map_set p (ProductQueue.with_items q (delete i (ProductQueue.items q)))
       (productQueues s))
    (userQueues_delete u p (userQueues s))
    (alter (λ st, st + QueueItem.quantity e) p (productModel s)).

(** The two ways [leaveQueue] can go. *)
Inductive leave_case (u p : string) (qid : option string) (s : QueueService)
  : bool * QueueService * list Event → Prop :=
| leave_absent :
    (∀ item, item ∈ queue_items s p → ¬ leave_matches u qid item) →
    leave_case u p qid s (false, s, [])
| leave_found q i e :
    Map_get p (productQueues s) = Some q →
    ProductQueue.items q !! i = Some e →
    leave_matches u qid e →
    (∀ j y, ProductQueue.items q !! j = Some y → (j < i)%nat → ¬ leave_matches u qid y) →
    leave_case u p qid s
      (true, left_state u p i e q s,
       updateQueuePositions
         (ProductQueue.with_items q (delete i (ProductQueue.items q)))
       ++ [queue_left u p (QueueItem.id e) "manual"]).

(** The entries of a record the sweep reclaims. *)
Definition expired_of (now : Z) (q : ProductQueue.t) : list QueueItem.t :=
  filter (expired now) (ProductQueue.items q).

(** What the sweep leaves of one entry of the table: the record with
    its live items, or nothing when none is live. *)
Definition sweep_entry (now : Z) (entry : string * ProductQueue.t)
  : option (string * ProductQueue.t) :=
  let items' := filter (live now) (ProductQueue.items entry.2) in
  if decide (length items' = 0%nat) then None
  else Some (entry.1, ProductQueue.with_items entry.2 items').

Definition release_all (p : string) (exp : list QueueItem.t) (db : gmap string Z)
  : gmap string Z :=
  foldl (λ db e, alter (λ st, st + QueueItem.quantity e) p db) db exp.

Definition unindex_all (p : string) (exp : list QueueItem.t)
    (uq : gmap string (gset string)) : gmap string (gset string) :=
  foldl (λ uq e, userQueues_delete (QueueItem.userId e) p uq) uq exp.

Definition timeouts (p : string) (exp : list QueueItem.t) : list Event :=
  (λ e, queue_timeout (QueueItem.userId e) p (QueueItem.id e)) <$> exp.

Definition swept_events (now : Z) (entry : string * ProductQueue.t) : list Event :=
  timeouts entry.1 (expired_of now entry.2)
  ++ (if decide (0 < length (expired_of now entry.2))%nat
      then updateQueuePositions
             (ProductQueue.with_items entry.2
                (filter (live now) (ProductQueue.items entry.2)))
      else []).

(** The state and the events of a whole sweep tick. *)
Definition swept (now : Z) (s : QueueService) : QueueService * list Event :=
  (mkService
     (omap (sweep_entry now) (productQueues s))
     (foldl (λ uq entry, unindex_all entry.1 (expired_of now entry.2) uq)
        (userQueues s) (productQueues s))
     (foldl (λ db entry, release_all entry.1 (expired_of now entry.2) db)
        (productModel s) (productQueues s)),
   productQueues s ≫= swept_events now).

(** The FIFO of a product in a queue table. *)
Definition table_items (m : list (string * ProductQueue.t)) (p : string)
  : list QueueItem.t :=
  match Map_get p m with
  | Some q => ProductQueue.items q
  | None => []
  end.

(** How many times an event occurs in an event list. *)
Definition occurrences (ev : Event) (evs : list Event) : nat :=
  length (filter (λ x, x = ev) evs).

(** ** Further reads and admissibility of operations *)

(** [getUserQueues]: [Array.from] of the user's set, empty when the
    user has none.  The array lists the set in insertion order; the
    model lists it in the order of [elements], so only statements that
    do not depend on the order are made about it. *)
Definition getUserQueues (userId : string) (s : QueueService) : list string :=
  match userQueues s !! userId with
  | Some userQueues => elements userQueues
  | None => []
  end.

(** The product an operation is addressed to; the sweep visits all. *)
Definition op_product (op : Op) : option string :=
  match op with
  | op_join _ _ p _ _ _ => Some p
  | op_leave _ p _ => Some p
  | op_payment _ p _ => Some p
  | op_sweep _ => None
  end.

(** A join asks for a positive quantity (the checkout controller lets
    no other through). *)
Definition positive_quantity (op : Op) : Prop :=
  match op with
  | op_join _ _ _ quantity _ _ => 0 < quantity
  | _ => True
  end.

(** A join asks for one unit or more. *)
Definition at_least_one_unit (op : Op) : Prop :=
  match op with
  | op_join _ _ _ quantity _ _ => 1 ≤ quantity
  | _ => True
  end.

(** Bounds the service keeps: no stock below zero, no entry without a
    positive quantity, no FIFO of [maxQueueSize + 1] entries or more, no
    capacity above [DEFAULT_QUEUE_SIZE].  The length is bounded by
    [maxQueueSize + 1], not by [maxQueueSize]: the capacity is twice a
    stock, which need not be a whole number, and the check
    [length >= maxQueueSize] lets a join in whenever the length is below
    it. *)
Record bounded (s : QueueService) : Prop := mk_bounded {
  stock_nonneg : ∀ p stock, productModel s !! p = Some stock → 0 ≤ stock;
  quantity_pos : ∀ p item, item ∈ queue_items s p → 0 < QueueItem.quantity item;
  within_capacity : ∀ p q, Map_get p (productQueues s) = Some q →
    Z.of_nat (length (ProductQueue.items q)) < ProductQueue.maxQueueSize q + 1
    ∧ ProductQueue.maxQueueSize q ≤ DEFAULT_QUEUE_SIZE
}.

(** Every entry holds one unit or more. *)
Definition whole_units (s : QueueService) : Prop :=
  ∀ p item, item ∈ queue_items s p → 1 ≤ QueueItem.quantity item.

(** The stock at last truth after an operation, in the words of the
    specification: a payment of a user who holds a pending entry is a
    sale of the quantity the payment names (the [Q] of
    [paymentSucceeded(u, r, Q)], which the code hands to
    [updateActualStock]); it lowers the reference stock of the product
    by that quantity.  Nothing else moves the reference stock. *)
Definition spec_truth_after (op : Op) (s : QueueService) (truth : string → Z)
  : string → Z :=
  match op with
  | op_payment u p quantity =>
      if inQueue (getQueueStatus u p s)
      then λ p', if decide (p' = p) then truth p' - quantity else truth p'
      else truth
  | _ => truth
  end.

(** No entry of the table has expired at [now]. *)
Definition all_live (now : Z) (l : list (string * ProductQueue.t)) : Prop :=
  ∀ p q e, (p, q) ∈ l → e ∈ ProductQueue.items q → live now e.

(** The states the service reaches from [s0] by joins for one unit or
    more with new ids, leaves, payments and sweep ticks, each run to
    completion before the next, while nothing else writes the stock. *)
Inductive run (s0 : QueueService) : QueueService → Prop :=
| run_start : run s0 s0
| run_step s op :
    run s0 s → fresh_id op s → at_least_one_unit op → run s0 (exec op s).1.

(** ** The payment controller

    The endpoints of [PaymentController] that call the queue service,
    and [PaymentService.initiateCardPayment].  A thrown [HttpException]
    is the [HttpException] result.  The collaborators whose code is
    elsewhere are inputs: [findUser] and [findProduct] stand for
    [userService.findOne] and [productService.findOne], and an
    [AxiosOutcome] for what the call to the payment gateway does.
    [createTransactionRecord] builds a document and returns without
    saving it or letting an error out, and the transaction reference
    only travels to those two calls, so neither appears. *)

Module PaymentController.

Inductive ErrorBody :=
| body_text (message : string)
| body_missing_fields (error details : string)
| body_join_refused (message details : string) (isQueueFull : bool)
| body_failed (message details : string).

Inductive Http (A : Type) :=
| returned (a : A)
| HttpException (body : ErrorBody) (status : Z).

Arguments returned {A} a.
Arguments HttpException {A} body status.

Definition BAD_REQUEST : Z := 400.
Definition NOT_FOUND : Z := 404.
Definition CONFLICT : Z := 409.
Definition INTERNAL_SERVER_ERROR : Z := 500.

Module RequestProps.
Record t := mk {
  userId : option string;
  productId : option string;
  quantity : option Z
}.
End RequestProps.

Record UserDoc := mkUser {
  user_id : string;
  user__id : string;
  user_email : string;
  user_name : string
}.

Record ProductDoc := mkProduct {
  product_id : string;
  product_name : string;
  product_price : Z;
  product_stock : Z
}.

(** What [axios.post] does: a response with its status and the
    [checkout_url] of its data, or a rejection. *)
Inductive AxiosOutcome :=
| axios_response (status : Z) (checkout_url : string)
| axios_rejected.

(** The body a checkout returns. *)
Inductive CheckoutResponse :=
| queued_checkout (message checkoutUrl : string)
    (position estimatedWaitTime : option Z) (queueId : option string)
| regular_checkout (message checkoutUrl : string).

Module QueueStatusResponse.
Record t := mk {
  inQueue : bool;
  position : option Z;
  estimatedWaitTime : option Z;
  expiresAt : option Z;
  message : string
}.
End QueueStatusResponse.

(** [!x] for a string that may be absent, and for a number. *)
Definition not_string (x : option string) : bool :=
  match x with
  | None => true
  | Some s => bool_decide (s = "")
  end.

Definition not_number (x : option Z) : bool :=
  match x with
  | None => true
  | Some n => bool_decide (n = 0)
  end.

(** [user.id || user._id]. *)
Definition user_key (user : UserDoc) : string :=
  if decide (user_id user = "") then user__id user else user_id user.

(** [String.prototype.includes]. *)
Fixpoint includes (needle s : string) : bool :=
  if String.prefix needle s then true
  else match s with
       | EmptyString => false
       | String _ s' => includes needle s'
       end.

(** [Math.ceil (x / d)] on integers, for [d > 0]. *)
Definition ceil_div (x d : Z) : Z := - ((- x) / d).

(** [PaymentService.initiateCardPayment]: the [checkout_url] of a
    response with status 200; anything else ends in the
    [InternalServerErrorException] of the [catch]. *)
Definition initiateCardPayment (gw : AxiosOutcome) : Http string :=
  match gw with
  | axios_response status checkout_url =>
      if decide (status = 200) then returned checkout_url
      else HttpException (body_text "Payment initiation failed") INTERNAL_SERVER_ERROR
  | axios_rejected =>
      HttpException (body_text "Payment initiation failed") INTERNAL_SERVER_ERROR
  end.

Definition handleQueuedCheckout (env : JoinEnv) (gw : AxiosOutcome)
    (user : UserDoc) (product : ProductDoc) (quantity : Z) (s : QueueService)
  : Http CheckoutResponse * QueueService * list Event :=
  let '(queueResult, s1, evs) :=
    joinQueue env (user_key user) (product_id product) quantity
      (user_email user) (user_name user) s in
  if negb (success queueResult) then
    (HttpException
       (body_join_refused "Unable to join queue" (message queueResult)
          (includes "unavailable due to high demand" (message queueResult)))
       CONFLICT,
     s1, evs)
  else
    match initiateCardPayment gw with
    | returned checkout_url =>
        (returned
           (queued_checkout "Successfully joined queue and payment initiated"
              checkout_url (position queueResult)
              (estimatedWaitTime queueResult) (queueId queueResult)),
         s1, evs)
    | HttpException body status => (HttpException body status, s1, evs)
    end.

Definition handleRegularCheckout (gw : AxiosOutcome)
    (user : UserDoc) (product : ProductDoc) (quantity : Z) : Http CheckoutResponse :=
  if decide (product_stock product < quantity) then
    HttpException (body_text "Insufficient stock available") CONFLICT
  else
    match initiateCardPayment gw with
    | returned checkout_url =>
        returned (regular_checkout "Purchase initiated successfully" checkout_url)
    | HttpException body status => HttpException body status
    end.

Definition initiateCheckout (findUser : string → option UserDoc)
    (findProduct : string → option ProductDoc) (env : JoinEnv) (gw : AxiosOutcome)
    (body : RequestProps.t) (s : QueueService)
  : Http CheckoutResponse * QueueService * list Event :=
  if not_string (RequestProps.userId body) || not_string (RequestProps.productId body)
     || not_number (RequestProps.quantity body)
  then
    (HttpException
       (body_missing_fields "Missing required fields"
          "userId, quantity, and productId are required")
       BAD_REQUEST, s, [])
  else
    match RequestProps.userId body, RequestProps.productId body,
          RequestProps.quantity body with
    | Some userId, Some productId, Some quantity =>
        if decide (quantity ≤ 0 ∨ 10 < quantity) then
          (HttpException (body_text "Invalid quantity. Must be between 1 and 10")
             BAD_REQUEST, s, [])
        else
          match findUser userId with
          | None => (HttpException (body_text "User not found") NOT_FOUND, s, [])
          | Some user =>
              match findProduct productId with
              | None => (HttpException (body_text "Product not found") NOT_FOUND, s, [])
              | Some product =>
                  if shouldActivateQueue productId s
                  then handleQueuedCheckout env gw user product quantity s
                  else (handleRegularCheckout gw user product quantity, s, [])
              end
          end
    | _, _, _ =>
        (HttpException
           (body_missing_fields "Missing required fields"
              "userId, quantity, and productId are required")
           BAD_REQUEST, s, [])
    end.

Definition getQueueStatus (now : Z) (userId productId : string) (s : QueueService)
  : QueueStatusResponse.t :=
  let queueStatus := getQueueStatus userId productId s in
  if negb (inQueue queueStatus) then
    QueueStatusResponse.mk false None None None
      "You are not currently in queue for this product"
  else
    let timeRemaining :=
      match status_expiresAt queueStatus with
      | Some expiresAt => if decide (expiresAt = 0) then 0 else expiresAt - now
      | None => 0
      end in
    QueueStatusResponse.mk true (status_position queueStatus)
      (status_estimatedWaitTime queueStatus) (status_expiresAt queueStatus)
      ("You are in position "
       +:+ match status_position queueStatus with
           | Some position => pretty position
           | None => "undefined"
           end
       +:+ ". Time remaining: " +:+ pretty (ceil_div timeRemaining 60000)
       +:+ " minutes").

Definition getUserQueues (userId : string) (s : QueueService) : string * list string :=
  ("User queues retrieved successfully", getUserQueues userId s).

Definition leaveQueue (userId productId : string) (s : QueueService)
  : Http string * QueueService * list Event :=
  let '(success, s1, evs) := leaveQueue userId productId None s in
  if negb success then
    (HttpException (body_text "Failed to leave queue or not in queue") BAD_REQUEST, s1, evs)
  else (returned "Successfully left the queue", s1, evs).

End PaymentController.

(** ** Lists *)

Lemma filter_all {A} (P : A → Prop) `{∀ x, Decision (P x)} (l : list A) :
  (∀ x, x ∈ l → P x) → filter P l = l.
Proof.
  induction l as [|x l IH]; intros Hall; [done|].
  rewrite filter_cons_True; [|apply Hall, list_elem_of_here].
  f_equal. apply IH. intros y Hy. apply Hall. by apply list_elem_of_further.
Qed.

Lemma omap_cons_None {A B} (f : A → option B) x l :
  f x = None → omap f (x :: l) = omap f l.
Proof. intros H. simpl. by rewrite H. Qed.

Lemma omap_cons_Some {A B} (f : A → option B) x y l :
  f x = Some y → omap f (x :: l) = y :: omap f l.
Proof. intros H. simpl. by rewrite H. Qed.

Lemma NoDup_fmap_sublist {A B} (f : A → B) (l k : list A) :
  k `sublist_of` l → NoDup (f <$> l) → NoDup (f <$> k).
Proof. intros Hsub Hnd. apply (sublist_NoDup (f <$> k) (f <$> l)); [exact Hnd|by apply fmap_sublist]. Qed.

Lemma NoDup_fmap_eq {A B} (f : A → B) (l : list A) x y :
  NoDup (f <$> l) → x ∈ l → y ∈ l → f x = f y → x = y.
Proof.
  intros Hnd [i Hi]%list_elem_of_lookup_1 [j Hj]%list_elem_of_lookup_1 Hf.
  assert (i = j) as ->; [|congruence].
  apply (NoDup_lookup _ _ _ (f x) Hnd); rewrite list_lookup_fmap.
  - by rewrite Hi.
  - rewrite Hj. simpl. by rewrite Hf.
Qed.

Lemma elem_of_delete_lookup {A} (l : list A) i k x :
  l !! k = Some x → k ≠ i → x ∈ delete i l.
Proof.
  intros Hk Hne. destruct (decide (k < i)%nat).
  - apply (list_elem_of_lookup_2 _ k). by rewrite list_lookup_delete_lt.
  - apply (list_elem_of_lookup_2 _ (k - 1)%nat).
    rewrite list_lookup_delete_ge; [|lia].
    by replace (S (k - 1)) with k by lia.
Qed.

Lemma elem_of_delete_inv_lookup {A} (l : list A) i x :
  x ∈ delete i l → ∃ k, k ≠ i ∧ l !! k = Some x.
Proof.
  intros [j Hj]%list_elem_of_lookup_1. destruct (decide (j < i)%nat).
  - exists j. rewrite list_lookup_delete_lt in Hj; [|done]. split; [lia|done].
  - exists (S j). rewrite list_lookup_delete_ge in Hj; [|lia]. split; [lia|done].
Qed.

Lemma delete_key_gone {A B} (f : A → B) (l : list A) i e x :
  NoDup (f <$> l) → l !! i = Some e → x ∈ delete i l → f x ≠ f e.
Proof.
  intros Hnd Hi (k & Hne & Hk)%elem_of_delete_inv_lookup Hf. apply Hne.
  apply (NoDup_lookup _ _ _ (f e) Hnd); rewrite list_lookup_fmap.
  - rewrite Hk. simpl. by rewrite Hf.
  - by rewrite Hi.
Qed.

(** In a list without duplicate keys, [findIndex] by the key of a
    member finds that member, and splicing it out is the same as
    filtering its key out. *)
Lemma find_by_key {A B} `{EqDecision B} (f : A → B) (l : list A) e :
  NoDup (f <$> l) → e ∈ l →
  ∃ i, list_find (λ x, f x = f e) l = Some (i, e)
       ∧ delete i l = filter (λ x, f x ≠ f e) l.
Proof.
  induction l as [|y l IH]; intros Hnd Hin.
  - by apply elem_of_nil in Hin.
  - rewrite fmap_cons in Hnd. apply NoDup_cons in Hnd as [Hy Hnd].
    apply elem_of_cons in Hin as [->|Hin].
    + exists 0%nat. split.
      * simpl. by rewrite decide_True.
      * simpl. rewrite filter_cons_False; [|by intros H; apply H].
        symmetry. apply filter_all. intros x Hx Hf. apply Hy. rewrite <- Hf.
        by apply list_elem_of_fmap_2.
    + destruct (IH Hnd Hin) as (i & Hfind & Hdel).
      assert (f y ≠ f e).
      { intros Hf. apply Hy. rewrite Hf. by apply list_elem_of_fmap_2. }
      exists (S i). split.
      * simpl. rewrite decide_False; [|done]. by rewrite Hfind.
      * simpl. rewrite filter_cons_True; [|done]. by rewrite Hdel.
Qed.

Lemma total_quantity_app l k :
  total_quantity (l ++ k) = total_quantity l + total_quantity k.
Proof. unfold total_quantity. induction l as [|x l IH]; simpl; lia. Qed.

Lemma total_quantity_delete l i e :
  l !! i = Some e →
  total_quantity (delete i l) = total_quantity l - QueueItem.quantity e.
Proof.
  revert i. induction l as [|x l IH]; intros [|i] Hi; simplify_eq/=.
  - unfold total_quantity. simpl. lia.
  - unfold total_quantity in *. simpl. rewrite (IH i Hi). lia.
Qed.

Lemma total_quantity_filter now l :
  total_quantity (filter (live now) l) + total_quantity (filter (expired now) l)
  = total_quantity l.
Proof.
  unfold total_quantity, live, expired.
  induction l as [|x l IH]; [done|]. rewrite !filter_cons.
  destruct (decide (now < QueueItem.expiresAt x)),
    (decide (QueueItem.expiresAt x ≤ now)); simpl; lia.
Qed.

(** ** The [Map] operations *)

Section JsMapFacts.
Context {V : Type}.
Implicit Types (m : list (string * V)) (k : string) (v : V).

Lemma Map_get_set_eq k v m : Map_get k (Map_set k v m) = Some v.
Proof.
  induction m as [|[k' v'] m IH]; simpl.
  - by rewrite decide_True.
  - destruct (decide (k' = k)); simpl.
    + by rewrite decide_True.
    + by rewrite decide_False.
Qed.

Lemma Map_get_set_ne k k' v m : k ≠ k' → Map_get k' (Map_set k v m) = Map_get k' m.
Proof.
  intros Hne. induction m as [|[k0 v0] m IH]; simpl.
  - by rewrite decide_False.
  - destruct (decide (k0 = k)) as [->|]; simpl.
    + by rewrite !decide_False.
    + destruct (decide (k0 = k')); done.
Qed.

Lemma Map_get_set k k' v m :
  Map_get k' (Map_set k v m) = if decide (k = k') then Some v else Map_get k' m.
Proof.
  destruct (decide (k = k')) as [->|]; auto using Map_get_set_eq, Map_get_set_ne.
Qed.

Lemma Map_set_get_id k v m : Map_get k m = Some v → Map_set k v m = m.
Proof.
  induction m as [|[k0 v0] m IH]; simpl; [done|].
  destruct (decide (k0 = k)) as [->|]; [by intros [= ->]|].
  intros ?. f_equal. auto.
Qed.

Lemma Map_set_set k v v' m : Map_set k v' (Map_set k v m) = Map_set k v' m.
Proof.
  induction m as [|[k0 v0] m IH]; simpl.
  - by rewrite decide_True.
  - destruct (decide (k0 = k)) as [->|]; simpl.
    + by rewrite decide_True.
    + rewrite decide_False; [|done]. by f_equal.
Qed.

Lemma Map_get_delete k k' m :
  Map_get k' (Map_delete k m) = if decide (k = k') then None else Map_get k' m.
Proof.
  unfold Map_delete. induction m as [|[k0 v0] m IH]; simpl.
  - by destruct (decide (k = k')).
  - rewrite filter_cons. simpl. destruct (decide (k0 ≠ k)) as [Hn|Hn]; simpl.
    + rewrite IH. destruct (decide (k0 = k')), (decide (k = k')); congruence.
    + rewrite IH. apply dec_stable in Hn. subst k0.
      destruct (decide (k = k')); done.
Qed.

Lemma Map_get_None k m : Map_get k m = None ↔ k ∉ m.*1.
Proof.
  induction m as [|[k0 v0] m IH]; simpl.
  - split; [intros _; apply not_elem_of_nil | done].
  - rewrite not_elem_of_cons. destruct (decide (k0 = k)); split; try done.
    + intros [? _]; congruence.
    + intros ?; split; [congruence | by apply IH].
    + intros [_ ?]; by apply IH.
Qed.

Lemma Map_get_Some_elem k v m : Map_get k m = Some v → (k, v) ∈ m.
Proof.
  induction m as [|[k0 v0] m IH]; simpl; [done|].
  destruct (decide (k0 = k)) as [->|].
  - intros [= ->]. apply list_elem_of_here.
  - intros ?. apply list_elem_of_further. auto.
Qed.

Lemma Map_elem_get k v m : NoDup m.*1 → (k, v) ∈ m → Map_get k m = Some v.
Proof.
  induction m as [|[k0 v0] m IH]; simpl.
  - intros _ H. by apply elem_of_nil in H.
  - intros Hnd H. apply NoDup_cons in Hnd as [Hk Hnd].
    apply elem_of_cons in H as [[= <- <-]|H].
    + by rewrite decide_True.
    + rewrite decide_False; [by apply IH|].
      intros ->. apply Hk. apply list_elem_of_fmap. by exists (k, v).
Qed.

Lemma Map_set_keys_present k v m :
  k ∈ m.*1 → (Map_set k v m).*1 = m.*1.
Proof.
  induction m as [|[k0 v0] m IH]; simpl.
  - intros H. by apply elem_of_nil in H.
  - intros H. destruct (decide (k0 = k)) as [->|]; simpl; [done|].
    f_equal. apply IH. apply elem_of_cons in H as [?|?]; [congruence|done].
Qed.

Lemma Map_set_keys_absent k v m :
  k ∉ m.*1 → (Map_set k v m).*1 = m.*1 ++ [k].
Proof.
  induction m as [|[k0 v0] m IH]; simpl; [done|].
  rewrite not_elem_of_cons. intros [? ?].
  rewrite decide_False; [|congruence]. simpl. f_equal. auto.
Qed.

Lemma Map_set_NoDup k v m : NoDup m.*1 → NoDup (Map_set k v m).*1.
Proof.
  intros Hnd. destruct (decide (k ∈ m.*1)).
  - by rewrite Map_set_keys_present.
  - rewrite Map_set_keys_absent; [|done].
    apply NoDup_app. split_and!; [done| |apply NoDup_singleton].
    intros x Hx Hx'. apply list_elem_of_singleton in Hx'. by subst.
Qed.

Lemma Map_delete_NoDup k m : NoDup m.*1 → NoDup (Map_delete k m).*1.
Proof.
  unfold Map_delete. induction m as [|[k0 v0] m IH]; simpl; [done|].
  intros Hnd. apply NoDup_cons in Hnd as [Hk Hnd]. rewrite filter_cons.
  destruct (decide _); simpl; [|auto].
  apply NoDup_cons. split; [|auto].
  intros Hin. apply Hk. apply list_elem_of_fmap in Hin as [[k1 v1] [-> Hin]].
  apply list_elem_of_filter in Hin as [_ Hin].
  apply list_elem_of_fmap. by exists (k1, v1).
Qed.

(** Overwriting, or deleting, the entry the iteration stands on. *)
Lemma Map_set_middle k v v0 (pre post : list (string * V)) :
  k ∉ pre.*1 → Map_set k v (pre ++ (k, v0) :: post) = pre ++ (k, v) :: post.
Proof.
  induction pre as [|[k1 v1] pre IH]; simpl.
  - intros _. by rewrite decide_True.
  - rewrite not_elem_of_cons. intros [? ?].
    rewrite decide_False; [|congruence]. f_equal. auto.
Qed.

Lemma Map_delete_middle k v (pre post : list (string * V)) :
  k ∉ pre.*1 → k ∉ post.*1 → Map_delete k (pre ++ (k, v) :: post) = pre ++ post.
Proof.
  intros Hpre Hpost. unfold Map_delete.
  rewrite filter_app, filter_cons. simpl.
  rewrite decide_False; [|by intros H; apply H].
  f_equal; apply filter_all; intros [k1 v1] Hin; simpl;
    intros ->; [apply Hpre | apply Hpost]; apply list_elem_of_fmap; by exists (k, v1).
Qed.
End JsMapFacts.

(** ** The reverse index *)

Lemma isUserInQueue_true u p s :
  isUserInQueue u p s = true ↔ in_index (userQueues s) u p.
Proof.
  unfold isUserInQueue, in_index. destruct (userQueues s !! u) as [S|].
  - rewrite bool_decide_eq_true. split; [eauto|]. by intros (S' & [= <-] & ?).
  - split; [done|]. by intros (S' & ? & ?).
Qed.

Lemma isUserInQueue_false u p s :
  isUserInQueue u p s = false ↔ ¬ in_index (userQueues s) u p.
Proof.
  rewrite <- isUserInQueue_true. destruct (isUserInQueue u p s); split; done.
Qed.

Lemma in_index_delete uq u p u' p' :
  in_index (userQueues_delete u p uq) u' p' ↔ in_index uq u' p' ∧ ¬ (u' = u ∧ p' = p).
Proof.
  unfold userQueues_delete, in_index.
  destruct (uq !! u) as [S|] eqn:Hu.
  - destruct (decide (size (S ∖ {[p]}) = 0%nat)) as [Hsz|Hsz].
    + apply size_empty_iff in Hsz.
      destruct (decide (u' = u)) as [->|Hne].
      * rewrite lookup_delete_eq. split.
        -- by intros (S' & ? & ?).
        -- intros [(S' & HS' & Hin) Hn]. rewrite Hu in HS'. injection HS' as <-.
           assert (p' ≠ p) by (intros ->; by apply Hn). set_solver.
      * rewrite lookup_delete_ne; [|done]. split; [|tauto].
        intros ?; split; [done|]. intros [? _]; done.
    + destruct (decide (u' = u)) as [->|Hne].
      * rewrite lookup_insert_eq. split.
        -- intros (S' & [= <-] & Hin). split; [exists S; set_solver | set_solver].
        -- intros [(S' & HS' & Hin) Hn]. rewrite Hu in HS'. injection HS' as <-.
           exists (S ∖ {[p]}). split; [done|].
           assert (p' ≠ p) by (intros ->; by apply Hn). set_solver.
      * rewrite lookup_insert_ne; [|done]. split; [|tauto].
        intros ?; split; [done|]. intros [? _]; done.
  - split; [|tauto]. intros (S' & HS' & Hin). split; [eauto|].
    intros [-> ->]. congruence.
Qed.

Lemma in_index_add s u p u' p' :
  in_index (userQueues (addUserQueue u p s)) u' p'
  ↔ in_index (userQueues s) u' p' ∨ (u' = u ∧ p' = p).
Proof.
  unfold addUserQueue, in_index. simpl.
  destruct (decide (u' = u)) as [->|Hne].
  - rewrite lookup_alter_eq. destruct (userQueues s !! u) as [S|] eqn:Hu.
    + rewrite Hu. simpl. split.
      * intros (S' & [= <-] & Hin). apply elem_of_union in Hin as [?|?]; [eauto|].
        right. set_solver.
      * intros [(S' & [= <-] & Hin)|[_ ->]]; eexists; (split; [done|]); set_solver.
    + rewrite lookup_insert_eq. simpl. split.
      * intros (S' & [= <-] & Hin). right. set_solver.
      * intros [(S' & ? & _)|[_ ->]]; [done|]. eexists; split; [done|]. set_solver.
  - rewrite lookup_alter_ne; [|done].
    destruct (userQueues s !! u) as [S|] eqn:Hu.
    + split; [eauto|]. intros [?|[? _]]; done.
    + rewrite lookup_insert_ne; [|done]. split; [eauto|]. intros [?|[? _]]; done.
Qed.

(** ** Case analysis of [joinQueue] *)

Lemma target_queue_max s p stock :
  ProductQueue.maxQueueSize (target_queue s p stock)
  = match Map_get p (productQueues s) with
    | Some q => ProductQueue.maxQueueSize q
    | None => Z.min DEFAULT_QUEUE_SIZE (stock * 2)
    end.
Proof. unfold target_queue. by destruct (Map_get p (productQueues s)). Qed.

Lemma target_queue_items s p stock :
  ProductQueue.items (target_queue s p stock) = queue_items s p.
Proof. unfold target_queue, queue_items. by destruct (Map_get p (productQueues s)). Qed.

Lemma target_queue_timeout s p stock :
  ProductQueue.processingTimeout (target_queue s p stock) = holdDuration s p.
Proof.
  unfold holdDuration, target_queue. by destruct (Map_get p (productQueues s)).
Qed.

Lemma joinQueue_cases env u p qty email name s :
  join_case env u p qty email name s (joinQueue env u p qty email name s).
Proof.
  unfold joinQueue.
  destruct (productModel s !! p) as [stock|] eqn:Hstock; [|by constructor].
  destruct (decide (stock < qty)); [by econstructor|].
  destruct (isUserInQueue u p s) eqn:Hin; [econstructor; [done|lia|done]|].
  assert (Hpos : ∀ l (x : QueueItem.t),
             Z.of_nat (length (l ++ [x])) = Z.of_nat (length l) + 1).
  { intros. rewrite length_app. simpl. lia. }
  destruct (Map_get p (productQueues s)) as [q|] eqn:Hq; simpl.
  - assert (HT : target_queue s p stock = q) by (unfold target_queue; by rewrite Hq).
    assert (HI : queue_items s p = ProductQueue.items q)
      by (unfold queue_items; by rewrite Hq).
    destruct (decide _) as [Hfull|Hfree].
    + replace s with (turned_away p stock s) at 2.
      * apply join_full; [done|lia|done|]. by rewrite HT, HI.
      * unfold turned_away. rewrite HT, (Map_set_get_id _ _ _ Hq). by destruct s.
    + rewrite Hpos, <- HI.
      replace (reserveStock _ _ _) with (joined env u p qty email name stock s).
      * apply join_admitted; [done|lia|done|]. rewrite HT, HI. lia.
      * unfold joined, new_item. rewrite HT, HI.
        unfold holdDuration, target_queue. by rewrite Hq.
  - assert (HI : queue_items s p = []) by (unfold queue_items; by rewrite Hq).
    destruct (decide _) as [Hfull|Hfree].
    + replace (markProductUnavailable _ _) with (turned_away p stock s).
      * apply join_full; [done|lia|done|].
        rewrite HI. unfold target_queue. by rewrite Hq.
      * unfold turned_away, target_queue. by rewrite Hq.
    + replace (Z.of_nat 1) with (Z.of_nat (length (queue_items s p)) + 1)
        by (by rewrite HI).
      replace (reserveStock _ _ _) with (joined env u p qty email name stock s).
      * apply join_admitted; [done|lia|done|].
        rewrite HI. unfold target_queue. rewrite Hq. simpl in *. lia.
      * unfold joined, new_item, reserveStock, addUserQueue. simpl.
        rewrite Map_set_set, HI. unfold holdDuration, target_queue. by rewrite Hq.
Qed.

(** ** Case analysis of [leaveQueue] *)

Lemma leaveQueue_cases u p qid s : leave_case u p qid s (leaveQueue u p qid s).
Proof.
  unfold leaveQueue.
  destruct (Map_get p (productQueues s)) as [q|] eqn:Hq.
  - destruct (list_find _ _) as [[i e]|] eqn:Hfind.
    + apply list_find_Some in Hfind as (Hi & He & Hfirst).
      exact (leave_found u p qid s q i e Hq Hi He Hfirst).
    + apply leave_absent. intros item Hin.
      apply list_find_None in Hfind. rewrite Forall_forall in Hfind.
      apply Hfind. unfold queue_items in Hin. by rewrite Hq in Hin.
  - apply leave_absent. intros item Hin.
    unfold queue_items in Hin. rewrite Hq in Hin. by apply elem_of_nil in Hin.
Qed.

(** ** The FIFO view after an operation *)

Lemma queue_items_joined env u p qty email name stock s p' :
  queue_items (joined env u p qty email name stock s) p'
  = if decide (p = p') then queue_items s p ++ [new_item env u p qty email name s]
    else queue_items s p'.
Proof.
  unfold queue_items at 1. simpl. rewrite Map_get_set.
  by destruct (decide (p = p')).
Qed.

Lemma queue_items_turned_away p stock s p' :
  queue_items (turned_away p stock s) p' = queue_items s p'.
Proof.
  unfold queue_items at 1. simpl. rewrite Map_get_set.
  destruct (decide (p = p')) as [<-|]; [|done]. apply target_queue_items.
Qed.

Lemma queue_items_left u p i e q s p' :
  Map_get p (productQueues s) = Some q →
  queue_items (left_state u p i e q s) p'
  = if decide (p = p') then delete i (queue_items s p) else queue_items s p'.
Proof.
  intros Hq. unfold queue_items at 1. simpl. rewrite Map_get_set.
  destruct (decide (p = p')); [|done]. unfold queue_items. by rewrite Hq.
Qed.

Lemma queue_items_Some s p q :
  Map_get p (productQueues s) = Some q → queue_items s p = ProductQueue.items q.
Proof. intros Hq. unfold queue_items. by rewrite Hq. Qed.

(** ** Consistency is kept by [joinQueue] and [leaveQueue] *)

Lemma wf_empty db : wf (mkService [] ∅ db).
Proof.
  split; simpl.
  - apply NoDup_nil_2.
  - intros p. apply NoDup_nil_2.
  - intros p. apply NoDup_nil_2.
  - intros u p. unfold isUserInQueue, has_entry, queue_items. simpl.
    rewrite lookup_empty. split; [done|]. intros (item & Hin & _).
    by apply elem_of_nil in Hin.
Qed.

Lemma wf_transfer s s' :
  NoDup (productQueues s').*1 →
  (∀ p, queue_items s' p = queue_items s p) →
  userQueues s' = userQueues s →
  wf s → wf s'.
Proof.
  intros Hkeys Hitems Huq [? Hids Husers Hidx]. split; [done| | |].
  - intros p. rewrite Hitems. apply Hids.
  - intros p. rewrite Hitems. apply Husers.
  - intros u p. unfold has_entry. rewrite Hitems. rewrite <- (Hidx u p).
    unfold isUserInQueue. by rewrite Huq.
Qed.

Lemma wf_joined env u p qty email name stock s :
  wf s →
  generateQueueId env ∉ (QueueItem.id <$> queue_items s p) →
  isUserInQueue u p s = false →
  wf (joined env u p qty email name stock s).
Proof.
  intros [Hkeys Hids Husers Hidx] Hfresh Hout.
  assert (Huser : u ∉ (QueueItem.userId <$> queue_items s p)).
  { intros (item & -> & Hin)%list_elem_of_fmap.
    assert (isUserInQueue (QueueItem.userId item) p s = true)
      by (apply Hidx; by exists item).
    congruence. }
  split.
  - simpl. by apply Map_set_NoDup.
  - intros p'. rewrite queue_items_joined. destruct (decide (p = p')); [|done].
    rewrite fmap_app. apply NoDup_app. split_and!; [done| |apply NoDup_singleton].
    intros x Hx Hx'. apply list_elem_of_singleton in Hx'. by subst.
  - intros p'. rewrite queue_items_joined. destruct (decide (p = p')); [|done].
    rewrite fmap_app. apply NoDup_app. split_and!; [done| |apply NoDup_singleton].
    intros x Hx Hx'. apply list_elem_of_singleton in Hx'. by subst.
  - intros u' p'. rewrite isUserInQueue_true.
    change (userQueues (joined env u p qty email name stock s))
      with (userQueues (addUserQueue u p s)).
    rewrite in_index_add, <- isUserInQueue_true, Hidx.
    unfold has_entry. rewrite queue_items_joined.
    destruct (decide (p = p')) as [<-|Hne].
    + split.
      * intros [(item & Hin & Hu)|[-> _]].
        -- exists item. split; [|done]. apply elem_of_app. by left.
        -- eexists. split; [apply elem_of_app; right; apply list_elem_of_here|done].
      * intros (item & [Hin|Hin%list_elem_of_singleton]%elem_of_app & Hu).
        -- left. by exists item.
        -- right. subst. done.
    + split; [|by left]. intros [?|[_ ?]]; [done|congruence].
Qed.

Lemma wf_left u p i e q s :
  wf s →
  Map_get p (productQueues s) = Some q →
  ProductQueue.items q !! i = Some e →
  QueueItem.userId e = u →
  wf (left_state u p i e q s).
Proof.
  intros [Hkeys Hids Husers Hidx] Hq Hi Hu.
  assert (HI := queue_items_Some _ _ _ Hq). rewrite <- HI in Hi.
  split.
  - simpl. by apply Map_set_NoDup.
  - intros p'. rewrite (queue_items_left _ _ _ _ _ _ _ Hq).
    destruct (decide (p = p')); [|done].
    eapply NoDup_fmap_sublist; [apply sublist_delete|done].
  - intros p'. rewrite (queue_items_left _ _ _ _ _ _ _ Hq).
    destruct (decide (p = p')); [|done].
    eapply NoDup_fmap_sublist; [apply sublist_delete|done].
  - intros u' p'. rewrite isUserInQueue_true.
    change (userQueues (left_state u p i e q s))
      with (userQueues_delete u p (userQueues s)).
    rewrite in_index_delete, <- isUserInQueue_true, Hidx.
    unfold has_entry. rewrite (queue_items_left _ _ _ _ _ _ _ Hq).
    destruct (decide (p = p')) as [<-|Hne].
    + split.
      * intros [(item & Hin & Hu') Hn]. exists item. split; [|done].
        apply list_elem_of_lookup_1 in Hin as [k Hk].
        apply (elem_of_delete_lookup _ _ k); [done|].
        intros ->. rewrite Hi in Hk. injection Hk as <-.
        apply Hn. split; congruence.
      * intros (item & Hin & Hu'). split.
        -- exists item. split; [|done]. by eapply list_elem_of_delete_inv.
        -- intros [-> _].
           eapply (delete_key_gone QueueItem.userId); [apply (Husers p)|done..|].
           congruence.
    + split; [by intros [? _]|]. intros ?. split; [done|]. intros [_ ?]; congruence.
Qed.
(** ** The sweep in closed form *)

Lemma filter_ext_in {A} (P Q : A → Prop) `{∀ x, Decision (P x)} `{∀ x, Decision (Q x)}
    (l : list A) :
  (∀ x, x ∈ l → P x ↔ Q x) → filter P l = filter Q l.
Proof.
  induction l as [|x l IH]; intros Hext; [done|].
  rewrite !filter_cons.
  rewrite IH by (intros y Hy; apply Hext; by apply list_elem_of_further).
  destruct (decide (P x)) as [HP|HP], (decide (Q x)) as [HQ|HQ]; try done;
    destruct (Hext x (list_elem_of_here _ _)); tauto.
Qed.

Lemma expire_loop p exp : ∀ items s evs,
  NoDup (QueueItem.id <$> items) →
  NoDup (QueueItem.id <$> exp) →
  (∀ e, e ∈ exp → e ∈ items) →
  foldl (expire_item p) (items, s, evs) exp
  = (filter (λ item, QueueItem.id item ∉ QueueItem.id <$> exp) items,
     mkService (productQueues s) (unindex_all p exp (userQueues s))
       (release_all p exp (productModel s)),
     evs ++ timeouts p exp).
Proof.
  induction exp as [|e exp IH]; intros items s evs Hnd Hexp Hsub.
  - simpl. rewrite app_nil_r.
    rewrite filter_all by (intros x _; apply not_elem_of_nil). by destruct s.
  - rewrite fmap_cons in Hexp. apply NoDup_cons in Hexp as [He Hexp].
    destruct (find_by_key QueueItem.id items e Hnd) as (i & Hfind & Hdel).
    { apply Hsub, list_elem_of_here. }
    simpl. rewrite Hfind, Hdel. rewrite IH; [|
      eapply NoDup_fmap_sublist; [apply sublist_filter|done] | done |].
    + rewrite list_filter_filter.
      rewrite (filter_ext_in _ (λ item, QueueItem.id item ∉ QueueItem.id <$> e :: exp))
        by (intros x _; rewrite fmap_cons, not_elem_of_cons; tauto).
      unfold timeouts. rewrite fmap_cons, <- app_assoc. done.
    + intros e' He'. apply list_elem_of_filter. split.
      * intros Hid. apply He. rewrite <- Hid. by apply list_elem_of_fmap_2.
      * apply Hsub. by apply list_elem_of_further.
Qed.

Lemma filter_expired_ids now items :
  NoDup (QueueItem.id <$> items) →
  filter (λ item, QueueItem.id item ∉ QueueItem.id <$> filter (expired now) items) items
  = filter (live now) items.
Proof.
  intros Hnd. apply filter_ext_in. intros x Hx. unfold live. split.
  - intros Hout. destruct (decide (now < QueueItem.expiresAt x)); [done|].
    destruct Hout. apply list_elem_of_fmap_2. apply list_elem_of_filter.
    split; [unfold expired; lia|done].
  - intros Hlive (y & Hid & [Hexp Hy]%list_elem_of_filter)%list_elem_of_fmap.
    assert (x = y) by by eapply (NoDup_fmap_eq QueueItem.id).
    subst. unfold expired in Hexp. lia.
Qed.

Lemma cleanup_queue_eq now s evs p q :
  NoDup (QueueItem.id <$> ProductQueue.items q) →
  cleanup_queue now (s, evs) (p, q)
  = (mkService
       (let m := Map_set p
                   (ProductQueue.with_items q (filter (live now) (ProductQueue.items q)))
                   (productQueues s) in
        if decide (length (filter (live now) (ProductQueue.items q)) = 0%nat)
        then Map_delete p m else m)
       (unindex_all p (expired_of now q) (userQueues s))
       (release_all p (expired_of now q) (productModel s)),
     evs ++ swept_events now (p, q)).
Proof.
  intros Hnd. unfold cleanup_queue.
  rewrite expire_loop; [|done| |].
  - rewrite (filter_expired_ids _ _ Hnd). unfold swept_events, expired_of. simpl.
    destruct (decide (0 < length _)%nat);
      destruct (decide (length (filter (live now) _) = 0%nat)); simpl;
      by rewrite ?app_assoc, ?app_nil_r.
  - eapply NoDup_fmap_sublist; [apply sublist_filter|done].
  - intros e He. by apply list_elem_of_filter in He as [_ ?].
Qed.
Lemma cleanup_fold now : ∀ l pre s evs,
  productQueues s = pre ++ l →
  NoDup (pre ++ l).*1 →
  (∀ p q, (p, q) ∈ l → NoDup (QueueItem.id <$> ProductQueue.items q)) →
  foldl (cleanup_queue now) (s, evs) l
  = (mkService
       (pre ++ omap (sweep_entry now) l)
       (foldl (λ uq entry, unindex_all entry.1 (expired_of now entry.2) uq)
          (userQueues s) l)
       (foldl (λ db entry, release_all entry.1 (expired_of now entry.2) db)
          (productModel s) l),
     evs ++ (l ≫= swept_events now)).
Proof.
  induction l as [|[p q] l IH]; intros pre s evs Htable Hkeys Hids.
  - simpl. rewrite !app_nil_r in *. destruct s; simpl in *; by subst.
  - assert (Hq : NoDup (QueueItem.id <$> ProductQueue.items q))
      by (apply (Hids p), list_elem_of_here).
    rewrite fmap_app, fmap_cons in Hkeys. apply NoDup_app in Hkeys as (Hpre & Hdisj & Hl).
    apply NoDup_cons in Hl as [Hp Hl].
    assert (Hppre : p ∉ pre.*1).
    { intros Hin. apply (Hdisj _ Hin), list_elem_of_here. }
    cbn [foldl]. rewrite (cleanup_queue_eq _ _ _ _ _ Hq). cbv zeta.
    rewrite Htable, Map_set_middle by done.
    rewrite bind_cons, app_assoc.
    destruct (decide (length (filter (live now) (ProductQueue.items q)) = 0%nat))
      as [Hnone|Hsome].
    + rewrite Map_delete_middle by done.
      assert (Hentry : sweep_entry now (p, q) = None)
        by (unfold sweep_entry; simpl; by rewrite decide_True).
      rewrite (omap_cons_None _ _ _ Hentry).
      rewrite (IH pre); simpl.
      * done.
      * done.
      * rewrite fmap_app. apply NoDup_app. split_and!; [done| |done].
        intros x Hx Hx'. apply (Hdisj x Hx). by apply list_elem_of_further.
      * intros p' q' Hin. apply (Hids p'). by apply list_elem_of_further.
    + assert (Hentry : sweep_entry now (p, q)
                       = Some (p, ProductQueue.with_items q
                                    (filter (live now) (ProductQueue.items q))))
        by (unfold sweep_entry; simpl; by rewrite decide_False).
      rewrite (omap_cons_Some _ _ _ _ Hentry).
      rewrite (IH (pre ++ [(p, ProductQueue.with_items q
                                 (filter (live now) (ProductQueue.items q)))]));
        simpl.
      * by rewrite <- app_assoc.
      * by rewrite <- app_assoc.
      * rewrite <- app_assoc, fmap_app. simpl. apply NoDup_app.
        split_and!; [done|done|]. by apply NoDup_cons.
      * intros p' q' Hin. apply (Hids p'). by apply list_elem_of_further.
Qed.

Lemma cleanupExpiredItems_eq now s :
  wf s → cleanupExpiredItems now s = swept now s.
Proof.
  intros [Hkeys Hids _ _]. unfold cleanupExpiredItems, swept.
  rewrite (cleanup_fold now (productQueues s) [] s []); [done|done|done|].
  intros p q Hin. specialize (Hids p).
  by rewrite (queue_items_Some _ _ _ (Map_elem_get _ _ _ Hkeys Hin)) in Hids.
Qed.
(** ** The state after a sweep *)

Lemma sweep_entry_Some now entry p q' :
  sweep_entry now entry = Some (p, q') →
  entry.1 = p
  ∧ q' = ProductQueue.with_items entry.2 (filter (live now) (ProductQueue.items entry.2))
  ∧ ProductQueue.items q' ≠ [].
Proof.
  unfold sweep_entry. destruct (decide _) as [|Hlen]; [done|].
  intros [= <- <-]. split_and!; [done..|]. simpl. intros Hnil.
  by rewrite Hnil in Hlen.
Qed.

Lemma sweep_table_keys now l p :
  p ∈ (omap (sweep_entry now) l).*1 → p ∈ l.*1.
Proof.
  intros ([p' q'] & -> & Hin)%list_elem_of_fmap.
  apply list_elem_of_omap in Hin as (entry & Hin & Hentry).
  apply sweep_entry_Some in Hentry as (Hk & _ & _).
  apply list_elem_of_fmap. exists entry. by rewrite Hk.
Qed.

Lemma sweep_table_NoDup now l : NoDup l.*1 → NoDup (omap (sweep_entry now) l).*1.
Proof.
  induction l as [|[k q] l IH]; [done|]. rewrite fmap_cons.
  intros [Hk Hl]%NoDup_cons. simpl. destruct (sweep_entry now (k, q)) as [[k' q']|] eqn:He.
  - apply sweep_entry_Some in He as (Hk' & _ & _). simpl in Hk'. subst k'.
    rewrite fmap_cons. apply NoDup_cons. split; [|auto].
    intros Hin. by apply Hk, (sweep_table_keys now).
  - auto.
Qed.

Lemma sweep_table_items now l p :
  NoDup l.*1 →
  table_items (omap (sweep_entry now) l) p = filter (live now) (table_items l p).
Proof.
  unfold table_items. induction l as [|[k q] l IH]; [done|]. rewrite fmap_cons.
  intros [Hk Hl]%NoDup_cons.
  destruct (sweep_entry now (k, q)) as [[k' q']|] eqn:He.
  - rewrite (omap_cons_Some _ _ _ _ He).
    apply sweep_entry_Some in He as (Hk' & -> & _). simpl in Hk'. subst k'.
    cbn [Map_get]. destruct (decide (k = p)); [done|auto].
  - rewrite (omap_cons_None _ _ _ He). cbn [Map_get].
    destruct (decide (k = p)) as [->|]; [|auto].
    assert (Hnone : Map_get p (omap (sweep_entry now) l) = None).
    { apply Map_get_None. intros Hin. by apply Hk, (sweep_table_keys now). }
    rewrite Hnone. unfold sweep_entry in He. simpl in He.
    destruct (decide _) as [Hlen|]; [|done]. apply nil_length_inv in Hlen.
    by rewrite Hlen.
Qed.

Lemma sweep_table_max now l p q' :
  NoDup l.*1 →
  Map_get p (omap (sweep_entry now) l) = Some q' →
  ∃ q, Map_get p l = Some q
       ∧ ProductQueue.maxQueueSize q' = ProductQueue.maxQueueSize q
       ∧ ProductQueue.items q' ≠ [].
Proof.
  intros Hl Hq'. apply Map_get_Some_elem in Hq'.
  apply list_elem_of_omap in Hq' as ([k q] & Hin & Hentry).
  apply sweep_entry_Some in Hentry as (Hk & -> & Hne). simpl in *. subst k.
  exists q. split_and!; [by apply Map_elem_get|done..].
Qed.

Lemma release_all_lookup p exp : ∀ db p',
  release_all p exp db !! p'
  = if decide (p = p') then (λ st, st + total_quantity exp) <$> db !! p'
    else db !! p'.
Proof.
  unfold release_all, total_quantity.
  induction exp as [|e exp IH]; intros db p'; simpl.
  - destruct (decide (p = p')); [|done].
    destruct (db !! p'); simpl; [f_equal; lia|done].
  - rewrite IH. destruct (decide (p = p')) as [->|]; [|by rewrite lookup_alter_ne].
    rewrite lookup_alter_eq. destruct (db !! p'); simpl; [f_equal; lia|done].
Qed.

Lemma sweep_stock now l : ∀ db p,
  NoDup l.*1 →
  foldl (λ db entry, release_all entry.1 (expired_of now entry.2) db) db l !! p
  = (λ st, st + total_quantity (filter (expired now) (table_items l p))) <$> db !! p.
Proof.
  unfold table_items. induction l as [|[k q] l IH]; intros db p Hnd.
  - simpl. destruct (db !! p); simpl; [f_equal; unfold total_quantity; simpl; lia|done].
  - rewrite fmap_cons in Hnd. apply NoDup_cons in Hnd as [Hk Hl].
    simpl. rewrite (IH _ _ Hl), release_all_lookup.
    destruct (decide (k = p)) as [->|]; [|done].
    assert (Hnone : Map_get p l = None) by by apply Map_get_None.
    rewrite Hnone. unfold expired_of.
    destruct (db !! p); simpl; [f_equal; unfold total_quantity; simpl; lia|done].
Qed.

Lemma unindex_all_in p exp : ∀ uq u' p',
  in_index (unindex_all p exp uq) u' p'
  ↔ in_index uq u' p' ∧ ¬ (p' = p ∧ ∃ e, e ∈ exp ∧ QueueItem.userId e = u').
Proof.
  unfold unindex_all. induction exp as [|e exp IH]; intros uq u' p'; simpl.
  - split; [|tauto]. intros ?. split; [done|]. intros [_ (e & He & _)].
    by apply elem_of_nil in He.
  - rewrite IH, in_index_delete. split.
    + intros [[Hin Hne] Hrest]. split; [done|].
      intros [-> (e' & [->|He']%elem_of_cons & Hu)].
      * by apply Hne.
      * apply Hrest. split; [done|]. by exists e'.
    + intros [Hin Hno]. split_and!; [done| |].
      * intros [-> ->]. apply Hno. split; [done|]. exists e.
        split; [apply list_elem_of_here|done].
      * intros [-> (e' & He' & Hu)]. apply Hno. split; [done|]. exists e'.
        split; [by apply list_elem_of_further|done].
Qed.

Lemma sweep_index now l : ∀ uq u p,
  NoDup l.*1 →
  in_index
    (foldl (λ uq entry, unindex_all entry.1 (expired_of now entry.2) uq) uq l) u p
  ↔ in_index uq u p
    ∧ ¬ ∃ e, e ∈ filter (expired now) (table_items l p) ∧ QueueItem.userId e = u.
Proof.
  unfold table_items. induction l as [|[k q] l IH]; intros uq u p Hnd.
  - simpl. split; [|tauto]. intros ?. split; [done|]. intros (e & He & _).
    by apply elem_of_nil in He.
  - rewrite fmap_cons in Hnd. apply NoDup_cons in Hnd as [Hk Hl].
    simpl. rewrite (IH _ _ _ Hl), unindex_all_in. unfold expired_of.
    destruct (decide (k = p)) as [->|Hne].
    + assert (Hnone : Map_get p l = None) by by apply Map_get_None.
      rewrite Hnone. split.
      * intros [[Hin Hno] _]. split; [done|]. intros ?. apply Hno. by split.
      * intros [Hin Hno]. split_and!; [done| |].
        -- intros [_ ?]. by apply Hno.
        -- intros (e & He & _). by apply elem_of_nil in He.
    + split; [tauto|]. intros [Hin Hno]. split_and!; [done| |done].
      intros [? _]. congruence.
Qed.
Lemma queue_items_swept now s p :
  wf s → queue_items (swept now s).1 p = filter (live now) (queue_items s p).
Proof. intros [Hkeys _ _ _]. by apply (sweep_table_items now (productQueues s) p). Qed.

Lemma wf_swept now s : wf s → wf (swept now s).1.
Proof.
  intros Hwf. assert (Hwf' := Hwf). destruct Hwf' as [Hkeys Hids Husers Hidx]. split.
  - by apply sweep_table_NoDup.
  - intros p. rewrite (queue_items_swept now s p Hwf).
    eapply NoDup_fmap_sublist; [apply sublist_filter|done].
  - intros p. rewrite (queue_items_swept now s p Hwf).
    eapply NoDup_fmap_sublist; [apply sublist_filter|done].
  - intros u p. unfold has_entry at 1.
    rewrite (queue_items_swept now s p Hwf), isUserInQueue_true. simpl.
    rewrite (sweep_index now _ _ _ _ Hkeys), <- isUserInQueue_true, Hidx.
    unfold has_entry.
    change (table_items (productQueues s) p) with (queue_items s p). split.
    + intros [(item & Hin & Hu) Hno]. exists item. split; [|done].
      apply list_elem_of_filter. split; [|done].
      destruct (decide (live now item)) as [|Hdead]; [done|].
      destruct Hno. exists item. split; [|done].
      apply list_elem_of_filter. split; [|done]. unfold live, expired in *. lia.
    + intros (item & [Hlive Hin]%list_elem_of_filter & Hu). split; [by exists item|].
      intros (e & [Hexp He]%list_elem_of_filter & Hu').
      assert (item = e)
        by (eapply (NoDup_fmap_eq QueueItem.userId); [apply (Husers p)|done..|congruence]).
      subst. unfold live, expired in *. lia.
Qed.

(** ** Counting events *)

Lemma occurrences_app ev l k :
  occurrences ev (l ++ k) = (occurrences ev l + occurrences ev k)%nat.
Proof. unfold occurrences. by rewrite filter_app, length_app. Qed.

Lemma occurrences_0 ev l : ev ∉ l → occurrences ev l = 0%nat.
Proof.
  intros Hout. unfold occurrences. induction l as [|x l IH]; [done|].
  apply not_elem_of_cons in Hout as [Hne Hout].
  rewrite filter_cons_False; [auto|congruence].
Qed.

Lemma timeout_in_timeouts u p i p' exp :
  queue_timeout u p i ∈ timeouts p' exp
  → p = p' ∧ ∃ e, e ∈ exp ∧ QueueItem.userId e = u ∧ QueueItem.id e = i.
Proof.
  unfold timeouts. intros (e & [= -> -> ->] & He)%list_elem_of_fmap. eauto.
Qed.

Lemma timeout_notin_positions u p i q : queue_timeout u p i ∉ updateQueuePositions q.
Proof.
  unfold updateQueuePositions. intros [k Hk]%list_elem_of_lookup_1.
  rewrite list_lookup_imap in Hk. by destruct (ProductQueue.items q !! k).
Qed.

Lemma timeouts_count p exp e :
  NoDup (QueueItem.id <$> exp) → e ∈ exp →
  occurrences (queue_timeout (QueueItem.userId e) p (QueueItem.id e)) (timeouts p exp)
  = 1%nat.
Proof.
  induction exp as [|x exp IH]; intros Hnd Hin.
  - by apply elem_of_nil in Hin.
  - rewrite fmap_cons in Hnd. apply NoDup_cons in Hnd as [Hx Hnd].
    change (timeouts p (x :: exp))
      with ([queue_timeout (QueueItem.userId x) p (QueueItem.id x)] ++ timeouts p exp).
    rewrite occurrences_app. apply elem_of_cons in Hin as [->|Hin].
    + rewrite (occurrences_0 _ (timeouts p exp)).
      * unfold occurrences. by rewrite filter_cons_True.
      * intros (_ & e' & He' & _ & Hid)%timeout_in_timeouts.
        apply Hx. rewrite <- Hid. by apply list_elem_of_fmap_2.
    + rewrite (IH Hnd Hin). unfold occurrences. rewrite filter_cons_False; [done|].
      intros [= _ Hid]. apply Hx. rewrite Hid. by apply list_elem_of_fmap_2.
Qed.

Lemma timeout_in_swept now l u p i :
  queue_timeout u p i ∈ l ≫= swept_events now →
  ∃ q e, (p, q) ∈ l ∧ e ∈ expired_of now q
         ∧ QueueItem.userId e = u ∧ QueueItem.id e = i.
Proof.
  intros ([k q] & Hev & Hin)%list_elem_of_bind. unfold swept_events in Hev.
  apply elem_of_app in Hev as [Hev|Hev].
  - apply timeout_in_timeouts in Hev as (-> & e & He & Hu & Hi). simpl in *.
    by exists q, e.
  - destruct (decide _); [|by apply elem_of_nil in Hev].
    by apply timeout_notin_positions in Hev.
Qed.

Lemma swept_events_count now l p q e :
  NoDup l.*1 → (p, q) ∈ l →
  NoDup (QueueItem.id <$> ProductQueue.items q) →
  e ∈ ProductQueue.items q → expired now e →
  occurrences (queue_timeout (QueueItem.userId e) p (QueueItem.id e))
    (l ≫= swept_events now) = 1%nat.
Proof.
  intros Hkeys Hin Hids He Hexp.
  induction l as [|[k q0] l IH]; [by apply elem_of_nil in Hin|].
  rewrite fmap_cons in Hkeys. apply NoDup_cons in Hkeys as [Hk Hl].
  rewrite bind_cons, occurrences_app.
  apply elem_of_cons in Hin as [[= <- <-]|Hin].
  - rewrite (occurrences_0 _ (l ≫= _)).
    + unfold swept_events. rewrite occurrences_app. simpl.
      rewrite (occurrences_0 _ (if decide _ then _ else _)).
      * rewrite timeouts_count; [done| |].
        -- eapply NoDup_fmap_sublist; [apply sublist_filter|done].
        -- by apply list_elem_of_filter.
      * destruct (decide _); [apply timeout_notin_positions|apply not_elem_of_nil].
    + intros (q' & _ & Hin' & _)%timeout_in_swept. apply Hk.
      apply list_elem_of_fmap. by exists (p, q').
  - rewrite (IH Hl Hin). rewrite occurrences_0; [done|].
    unfold swept_events. intros [Hev|Hev]%elem_of_app.
    + apply timeout_in_timeouts in Hev as [Hpk _]. simpl in Hpk. subst k.
      apply Hk. apply list_elem_of_fmap. by exists (p, q).
    + destruct (decide _); [|by apply elem_of_nil in Hev].
      by apply timeout_notin_positions in Hev.
Qed.

(** ** Consistency is kept by every operation *)

Lemma wf_exec op s : wf s → fresh_id op s → wf (exec op s).1.
Proof.
  intros Hwf Hfresh. destruct op as [env u p qty email name|u p qid|u p qty|now]; simpl.
  - destruct (joinQueue_cases env u p qty email name s); simpl; try done.
    + apply (wf_transfer s); [|apply queue_items_turned_away|done|done].
      simpl. apply Map_set_NoDup, Hwf.
    + by apply wf_joined.
  - destruct (leaveQueue_cases u p qid s) as [|q i e Hq Hi [Hu _] _]; simpl; [done|].
    by apply (wf_left u p i e q).
  - unfold processSuccessfulPayment.
    destruct (leaveQueue_cases u p None s) as [|q i e Hq Hi [Hu _] _]; simpl; [done|].
    by apply (wf_left u p i e q).
  - rewrite cleanupExpiredItems_eq by done. by apply wf_swept.
Qed.
(** ** The wait estimate *)

(** C9. The estimated wait grows strictly with the position (for every
    position, so in particular from 1 on), and the estimate an
    operation reports is [calculateEstimatedWaitTime] of
    the position alone: neither [joinQueue] nor [getQueueStatus] lets a
    requested quantity enter it. *)
Theorem wait_strictly_increasing_in_position :
  (∀ p : Z, calculateEstimatedWaitTime (p + 1) > calculateEstimatedWaitTime p)
  ∧ (∀ env u p qty email name s,
       estimatedWaitTime (joinQueue env u p qty email name s).1.1
       = calculateEstimatedWaitTime <$> position (joinQueue env u p qty email name s).1.1)
  ∧ (∀ u p s,
       status_estimatedWaitTime (getQueueStatus u p s)
       = calculateEstimatedWaitTime <$> status_position (getQueueStatus u p s)).
Proof.
  split_and!.
  - intros p. unfold calculateEstimatedWaitTime. lia.
  - intros. unfold joinQueue.
    destruct (productModel s !! p); [|done].
    destruct (decide _); [done|]. destruct (isUserInQueue u p s); [done|].
    destruct (Map_get p (productQueues s)); simpl; by destruct (decide _).
  - intros. unfold getQueueStatus.
    destruct (Map_get p (productQueues s)); [|done].
    by destruct (list_find _ _) as [[??]|].
Qed.

(** ** Payment *)

(** C10. When the user holds no entry for the product,
    [processSuccessfulPayment] still answers [true] and emits
    [payment.processed] and nothing else, and the state, the stock
    included, is untouched.  The answer is [true] in every state, so it
    does not tell a commit of an entry from one against none. *)
Theorem payment_without_entry u p qty s :
  ¬ has_entry s u p →
  processSuccessfulPayment u p qty s = (true, s, [payment_processed u p qty])
  ∧ ∀ s', (processSuccessfulPayment u p qty s').1.1 = true.
Proof.
  intros Hno. split.
  - unfold processSuccessfulPayment, leaveQueue.
    destruct (Map_get p (productQueues s)) as [q|] eqn:Hq; [|done].
    destruct (list_find _ _) as [[i e]|] eqn:Hfind; [|done].
    apply list_find_Some in Hfind as (Hi & [Hu _] & _).
    destruct Hno. exists e. split; [|done].
    unfold queue_items. rewrite Hq. by eapply list_elem_of_lookup_2.
  - intros s'. unfold processSuccessfulPayment.
    by destruct (leaveQueue u p None s') as [[??]?].
Qed.

Lemma payment_without_entry_witness :
  processSuccessfulPayment "A" "R" 2 shop0 = (true, shop0, [payment_processed "A" "R" 2])
  ∧ ∀ s', (processSuccessfulPayment "A" "R" 2 s').1.1 = true.
Proof.
  apply (payment_without_entry "A" "R" 2 shop0).
  intros (item & Hin & _). unfold queue_items in Hin. simpl in Hin.
  by apply elem_of_nil in Hin.
Defined.

(** C1, what the code does.  For a user with a pending entry of
    quantity [Q], [processSuccessfulPayment] removes the entry and
    releases the hold; [updateActualStock] then changes nothing, so the
    stock ends [Q] above its value before the call, that is, restored to
    its value before the reservation, not reduced. *)
Theorem payment_releases_without_commit u p qty s q i e stock :
  Map_get p (productQueues s) = Some q →
  list_find (leave_matches u None) (ProductQueue.items q) = Some (i, e) →
  productModel s !! p = Some stock →
  let '(ok, s', evs) := processSuccessfulPayment u p qty s in
  ok = true
  ∧ queue_items s' p = delete i (ProductQueue.items q)
  ∧ productModel s' !! p = Some (stock + QueueItem.quantity e).
Proof.
  intros Hq Hfind Hstock. unfold processSuccessfulPayment, leaveQueue.
  rewrite Hq, Hfind. simpl. split_and!; [done| |].
  - unfold queue_items. simpl. by rewrite Map_get_set_eq.
  - by rewrite lookup_alter_eq, Hstock.
Qed.

Lemma payment_releases_without_commit_witness :
  let '(ok, s', evs) := processSuccessfulPayment "A" "R" 2 shop1 in
  ok = true
  ∧ queue_items s' "R" = delete 0%nat (ProductQueue.items queueR)
  ∧ productModel s' !! "R" = Some (1 + QueueItem.quantity itemA).
Proof.
  apply (payment_releases_without_commit "A" "R" 2 shop1 queueR 0%nat itemA 1);
    by vm_compute.
Defined.

(** ** Joining *)

Lemma wf_shop1 : wf shop1.
Proof.
  apply (wf_exec (op_join envA "A" "R" 2 "a@shop" "A") shop0).
  - apply wf_empty.
  - simpl. apply not_elem_of_nil.
Qed.

Lemma full_at_capacity s p stock qty :
  0 < qty → qty ≤ stock →
  ProductQueue.maxQueueSize (target_queue s p stock)
    ≤ Z.of_nat (length (queue_items s p)) →
  at_capacity s p.
Proof.
  intros Hpos Hle. rewrite target_queue_max. unfold at_capacity, queue_items.
  destruct (Map_get p (productQueues s)) as [q|].
  - intros ?. by exists q.
  - unfold DEFAULT_QUEUE_SIZE. simpl. lia.
Qed.

(** C7. A join that passes every check appends, at the tail of the
    FIFO, an entry whose [expiresAt] is the clock reading plus the hold
    duration of the queue; the stock drops by the quantity at once; the
    reverse index holds the product for the user; one [queue.joined]
    event carries the 1-based tail position; and the result carries that
    position, the wait estimate for it, and the reservation id. *)
Theorem join_admits env u p qty email name s stock :
  wf s →
  productModel s !! p = Some stock →
  0 < qty → qty ≤ stock →
  ¬ has_entry s u p →
  ¬ at_capacity s p →
  let '(r, s', evs) := joinQueue env u p qty email name s in
  let pos := Z.of_nat (length (queue_items s p)) + 1 in
  queue_items s' p = queue_items s p ++ [new_item env u p qty email name s]
  ∧ QueueItem.expiresAt (new_item env u p qty email name s)
    = now_expiresAt env + holdDuration s p
  ∧ productModel s' !! p = Some (stock - qty)
  ∧ isUserInQueue u p s' = true
  ∧ evs = [queue_joined u p (generateQueueId env) pos]
  ∧ r = mkJoinResult true (Some pos) (Some (calculateEstimatedWaitTime pos))
          (Some (generateQueueId env)) "Successfully joined the queue".
Proof.
  intros Hwf Hstock Hpos Hle Hout Hcap.
  destruct (joinQueue_cases env u p qty email name s)
    as [Hnone|stock' Hs Hlt|stock' Hs _ Hin|stock' Hs _ _ Hfull|stock' Hs _ Hidx Hfree].
  - congruence.
  - rewrite Hstock in Hs. injection Hs as <-. lia.
  - destruct Hout. by apply (wf_index s Hwf).
  - rewrite Hstock in Hs. injection Hs as <-.
    destruct Hcap. by apply (full_at_capacity s p stock qty).
  - rewrite Hstock in Hs. injection Hs as <-. cbv zeta.
    split_and!; try done.
    + rewrite queue_items_joined. by rewrite decide_True.
    + simpl. by rewrite lookup_alter_eq, Hstock.
    + apply isUserInQueue_true.
      change (userQueues (joined env u p qty email name stock s))
        with (userQueues (addUserQueue u p s)).
      apply in_index_add. by right.
Qed.

Lemma join_admits_witness :
  let '(r, s', evs) := joinQueue envA "A" "R" 2 "a@shop" "A" shop0 in
  let pos := Z.of_nat (length (queue_items shop0 "R")) + 1 in
  queue_items s' "R" = queue_items shop0 "R" ++ [new_item envA "A" "R" 2 "a@shop" "A" shop0]
  ∧ QueueItem.expiresAt (new_item envA "A" "R" 2 "a@shop" "A" shop0)
    = now_expiresAt envA + holdDuration shop0 "R"
  ∧ productModel s' !! "R" = Some (3 - 2)
  ∧ isUserInQueue "A" "R" s' = true
  ∧ evs = [queue_joined "A" "R" (generateQueueId envA) pos]
  ∧ r = mkJoinResult true (Some pos) (Some (calculateEstimatedWaitTime pos))
          (Some (generateQueueId envA)) "Successfully joined the queue".
Proof.
  apply (join_admits envA "A" "R" 2 "a@shop" "A" shop0 3).
  - apply wf_empty.
  - done.
  - lia.
  - lia.
  - intros (item & Hin & _). by apply elem_of_nil in Hin.
  - intros (q & Hq & _). done.
Defined.

(** C4. [joinQueue] checks, in this order, that the product exists,
    that the stock covers the quantity, that the user has no entry in
    the product's queue, and that the queue is below [maxQueueSize]; the
    first check that fails decides the result, which is returned as a
    value, with no event emitted and the state left as it was. *)
Theorem join_preconditions_in_order env u p qty email name s :
  wf s → 0 < qty →
  let '(r, s', evs) := joinQueue env u p qty email name s in
  (productModel s !! p = None → r = NotFound ∧ s' = s ∧ evs = [])
  ∧ (∀ stock, productModel s !! p = Some stock → stock < qty →
       r = InsufficientStock ∧ s' = s ∧ evs = [])
  ∧ (∀ stock, productModel s !! p = Some stock → qty ≤ stock → has_entry s u p →
       r = AlreadyQueued ∧ s' = s ∧ evs = [])
  ∧ (∀ stock, productModel s !! p = Some stock → qty ≤ stock → ¬ has_entry s u p →
       at_capacity s p → r = QueueFull ∧ s' = s ∧ evs = [])
  ∧ (∀ stock, productModel s !! p = Some stock → qty ≤ stock → ¬ has_entry s u p →
       ¬ at_capacity s p → success r = true).
Proof.
  intros Hwf Hpos.
  destruct (joinQueue_cases env u p qty email name s)
    as [Hnone|stock' Hs Hlt|stock' Hs Hle Hin|stock' Hs Hle Hidx Hfull
       |stock' Hs Hle Hidx Hfree]; cbv zeta.
  - split_and!; [done|intros; congruence..].
  - split_and!; [intros; congruence| |intros ? ? ?..].
    + done.
    + assert (stock = stock') by congruence. lia.
    + assert (stock = stock') by congruence. lia.
    + assert (stock = stock') by congruence. lia.
  - apply (wf_index s Hwf) in Hin.
    split_and!; [intros; congruence| |done|done|done].
    intros stock Hs' ?. assert (stock = stock') by congruence. lia.
  - assert (Hout : ¬ has_entry s u p).
    { intros Hin%(wf_index s Hwf). congruence. }
    assert (Hcap : at_capacity s p) by by apply (full_at_capacity s p stock' qty).
    assert (Hsame : turned_away p stock' s = s).
    { destruct Hcap as (q & Hq & _). unfold turned_away, target_queue.
      rewrite Hq, (Map_set_get_id _ _ _ Hq). by destruct s. }
    rewrite Hsame.
    split_and!; [intros; congruence| |done|done|done].
    intros stock Hs' ?. assert (stock = stock') by congruence. lia.
  - assert (Hout : ¬ has_entry s u p).
    { intros Hin%(wf_index s Hwf). congruence. }
    assert (Hcap : ¬ at_capacity s p).
    { intros (q & Hq & Hfull). rewrite target_queue_max, Hq in Hfree.
      rewrite (queue_items_Some _ _ _ Hq) in Hfree. lia. }
    split_and!; [intros; congruence| |done|done|done].
    intros stock Hs' ?. assert (stock = stock') by congruence. lia.
Qed.

Lemma join_preconditions_in_order_witness :
  let '(r, s', evs) :=
    joinQueue (mkJoinEnv "q2" 200 200 200) "B" "R" 2 "b@shop" "B" shop1 in
  (productModel shop1 !! "R" = None → r = NotFound ∧ s' = shop1 ∧ evs = [])
  ∧ (∀ stock, productModel shop1 !! "R" = Some stock → stock < 2 →
       r = InsufficientStock ∧ s' = shop1 ∧ evs = [])
  ∧ (∀ stock, productModel shop1 !! "R" = Some stock → 2 ≤ stock →
       has_entry shop1 "B" "R" → r = AlreadyQueued ∧ s' = shop1 ∧ evs = [])
  ∧ (∀ stock, productModel shop1 !! "R" = Some stock → 2 ≤ stock →
       ¬ has_entry shop1 "B" "R" → at_capacity shop1 "R" →
       r = QueueFull ∧ s' = shop1 ∧ evs = [])
  ∧ (∀ stock, productModel shop1 !! "R" = Some stock → 2 ≤ stock →
       ¬ has_entry shop1 "B" "R" → ¬ at_capacity shop1 "R" → success r = true).
Proof.
  apply (join_preconditions_in_order (mkJoinEnv "q2" 200 200 200)
           "B" "R" 2 "b@shop" "B" shop1).
  - apply wf_shop1.
  - lia.
Defined.

(** ** Leaving *)

(** C8. A leave that succeeds removes one entry of the user, at some
    index [i] of the FIFO.  The other entries keep their order: those
    before [i] stay where they were, those after [i] move up by one.
    The events are one [queue.position.updated] per remaining entry, in
    queue order, each with the entry's new index plus one and the wait
    estimate computed for it, followed by [queue.left]. *)
Theorem leave_reindexes u p qid s :
  (leaveQueue u p qid s).1.1 = true →
  let '(ok, s', evs) := leaveQueue u p qid s in
  ∃ i removed,
    queue_items s p !! i = Some removed
    ∧ QueueItem.userId removed = u
    ∧ queue_items s' p = delete i (queue_items s p)
    ∧ (∀ j e, (j < i)%nat → queue_items s p !! j = Some e →
              queue_items s' p !! j = Some e)
    ∧ (∀ j e, (i < j)%nat → queue_items s p !! j = Some e →
              queue_items s' p !! (j - 1)%nat = Some e)
    ∧ evs = imap (λ k item,
                    queue_position_updated (QueueItem.userId item)
                      (QueueItem.productId item) (QueueItem.id item)
                      (Z.of_nat k + 1)
                      (calculateEstimatedWaitTime (Z.of_nat k + 1)))
                 (queue_items s' p)
            ++ [queue_left u p (QueueItem.id removed) "manual"].
Proof.
  destruct (leaveQueue_cases u p qid s) as [|q i e Hq Hi [Hu _] _]; simpl; [done|].
  intros _. exists i, e.
  assert (HI := queue_items_Some _ _ _ Hq).
  assert (HI' : queue_items (left_state u p i e q s) p = delete i (queue_items s p)).
  { rewrite (queue_items_left _ _ _ _ _ _ _ Hq). by rewrite decide_True. }
  rewrite HI', HI. split_and!; try done.
  - intros j x Hlt Hj. by rewrite list_lookup_delete_lt.
  - intros j x Hlt Hj. rewrite list_lookup_delete_ge by lia.
    by replace (S (j - 1)) with j by lia.
Qed.

Lemma leave_reindexes_witness :
  let '(ok, s', evs) := leaveQueue "U3" "R" None shop_full in
  ∃ i removed,
    queue_items shop_full "R" !! i = Some removed
    ∧ QueueItem.userId removed = "U3"
    ∧ queue_items s' "R" = delete i (queue_items shop_full "R")
    ∧ (∀ j e, (j < i)%nat → queue_items shop_full "R" !! j = Some e →
              queue_items s' "R" !! j = Some e)
    ∧ (∀ j e, (i < j)%nat → queue_items shop_full "R" !! j = Some e →
              queue_items s' "R" !! (j - 1)%nat = Some e)
    ∧ evs = imap (λ k item,
                    queue_position_updated (QueueItem.userId item)
                      (QueueItem.productId item) (QueueItem.id item)
                      (Z.of_nat k + 1)
                      (calculateEstimatedWaitTime (Z.of_nat k + 1)))
                 (queue_items s' "R")
            ++ [queue_left "U3" "R" (QueueItem.id removed) "manual"].
Proof.
  apply (leave_reindexes "U3" "R" None shop_full). by vm_compute.
Defined.

(** ** Capacity *)

Lemma exec_keeps_max op s p q q' :
  wf s →
  Map_get p (productQueues s) = Some q →
  Map_get p (productQueues (exec op s).1) = Some q' →
  ProductQueue.maxQueueSize q' = ProductQueue.maxQueueSize q.
Proof.
  intros Hwf Hq.
  destruct op as [env u p0 qty email name|u p0 qid|u p0 qty|now]; simpl.
  - destruct (joinQueue_cases env u p0 qty email name s); simpl;
      try (intros; congruence); rewrite Map_get_set;
      (destruct (decide (p0 = p)) as [->|]; [|intros; congruence]);
      intros [= <-]; unfold target_queue; by rewrite Hq.
  - destruct (leaveQueue_cases u p0 qid s) as [|q0 i e Hq0 _ _ _]; simpl;
      [intros; congruence|].
    rewrite Map_get_set. destruct (decide (p0 = p)) as [->|]; [|intros; congruence].
    intros [= <-]. simpl. congruence.
  - unfold processSuccessfulPayment, updateActualStock.
    destruct (leaveQueue_cases u p0 None s) as [|q0 i e Hq0 _ _ _]; simpl;
      [intros; congruence|].
    rewrite Map_get_set. destruct (decide (p0 = p)) as [->|]; [|intros; congruence].
    intros [= <-]. simpl. congruence.
  - rewrite cleanupExpiredItems_eq by done. simpl. intros Hq'.
    destruct (sweep_table_max now _ _ _ (wf_keys s Hwf) Hq') as (q0 & Hq0 & Hmax & _).
    congruence.
Qed.

Lemma exec_creates op s p q' :
  wf s →
  Map_get p (productQueues s) = None →
  Map_get p (productQueues (exec op s).1) = Some q' →
  ∃ stock, productModel s !! p = Some stock
           ∧ ProductQueue.maxQueueSize q' = Z.min DEFAULT_QUEUE_SIZE (2 * stock).
Proof.
  intros Hwf Hq.
  destruct op as [env u p0 qty email name|u p0 qid|u p0 qty|now]; simpl.
  - destruct (joinQueue_cases env u p0 qty email name s) as [| | |stock Hs _ _ _|stock Hs _ _ _];
      simpl; try (intros; congruence); rewrite Map_get_set;
      (destruct (decide (p0 = p)) as [->|]; [|intros; congruence]);
      intros [= <-]; exists stock; (split; [done|]);
      unfold target_queue; rewrite Hq; simpl; by rewrite Z.mul_comm.
  - destruct (leaveQueue_cases u p0 qid s) as [|q0 i e Hq0 _ _ _]; simpl;
      [intros; congruence|].
    rewrite Map_get_set. destruct (decide (p0 = p)) as [->|]; intros; congruence.
  - unfold processSuccessfulPayment, updateActualStock.
    destruct (leaveQueue_cases u p0 None s) as [|q0 i e Hq0 _ _ _]; simpl;
      [intros; congruence|].
    rewrite Map_get_set. destruct (decide (p0 = p)) as [->|]; intros; congruence.
  - rewrite cleanupExpiredItems_eq by done. simpl. intros Hq'.
    destruct (sweep_table_max now _ _ _ (wf_keys s Hwf) Hq') as (q0 & Hq0 & _).
    congruence.
Qed.

(** C3, as the code has it.  A queue record comes into being only in a
    join, with [maxQueueSize] the minimum of 10 and twice the stock read
    by that join, and no operation changes the [maxQueueSize] of a record
    afterwards.  A join on a queue that holds [maxQueueSize] entries
    never succeeds; its result is [QueueFull] when the three earlier
    checks pass, and the result of the first earlier check that fails
    otherwise. *)
Theorem capacity_fixed_at_creation :
  (∀ op s p q', wf s →
     Map_get p (productQueues s) = None →
     Map_get p (productQueues (exec op s).1) = Some q' →
     ∃ stock, productModel s !! p = Some stock
              ∧ ProductQueue.maxQueueSize q' = Z.min DEFAULT_QUEUE_SIZE (2 * stock))
  ∧ (∀ op s p q q', wf s →
       Map_get p (productQueues s) = Some q →
       Map_get p (productQueues (exec op s).1) = Some q' →
       ProductQueue.maxQueueSize q' = ProductQueue.maxQueueSize q)
  ∧ (∀ env u p qty email name s, at_capacity s p →
       success (joinQueue env u p qty email name s).1.1 = false)
  ∧ (∀ env u p qty email name s stock, wf s → at_capacity s p →
       productModel s !! p = Some stock → qty ≤ stock → ¬ has_entry s u p →
       (joinQueue env u p qty email name s).1.1 = QueueFull).
Proof.
  split_and!.
  - apply exec_creates.
  - apply exec_keeps_max.
  - intros env u p qty email name s (q & Hq & Hfull).
    destruct (joinQueue_cases env u p qty email name s) as [| | | |stock _ _ _ Hfree];
      simpl; try done.
    rewrite target_queue_max, Hq, (queue_items_Some _ _ _ Hq) in Hfree. lia.
  - intros env u p qty email name s stock Hwf (q & Hq & Hfull) Hstock Hle Hout.
    destruct (joinQueue_cases env u p qty email name s)
      as [|stock' Hs|stock' _ _ Hin| |stock' _ _ _ Hfree]; simpl; try done.
    + congruence.
    + assert (stock = stock') by congruence. lia.
    + destruct Hout. by apply (wf_index s Hwf).
    + rewrite target_queue_max, Hq, (queue_items_Some _ _ _ Hq) in Hfree. lia.
Qed.

(** C3, as stated, fails: the queue of [R] in [shop_full] holds
    [maxQueueSize] entries, and a further join is turned away for
    insufficient stock, not with [QueueFull]. *)
Lemma full_queue_join_not_QueueFull :
  ¬ (∀ env u p qty email name s,
       at_capacity s p → (joinQueue env u p qty email name s).1.1 = QueueFull).
Proof.
  intros H.
  specialize (H (mkJoinEnv "r10" 100 100 100) "K" "R" 1 "k@shop" "K" shop_full).
  assert (Hcap : at_capacity shop_full "R").
  { eexists. split; [by vm_compute|]. vm_compute. by intros [=]. }
  specialize (H Hcap). vm_compute in H. discriminate H.
Qed.

(** ** Lifetime of a queue record *)

Lemma leave_keeps_keys u p qid s :
  (productQueues (leaveQueue u p qid s).1.2).*1 = (productQueues s).*1.
Proof.
  destruct (leaveQueue_cases u p qid s) as [|q i e Hq _ _ _]; simpl; [done|].
  apply Map_set_keys_present.
  destruct (decide (p ∈ (productQueues s).*1)) as [|Hout]; [done|].
  apply Map_get_None in Hout. congruence.
Qed.

(** C5, as the code has it.  Deleting a record whose entry list is
    empty is the sweep's work: after a sweep tick every record left in
    the table has an entry.  [leaveQueue] and [processSuccessfulPayment]
    never delete a record, so a record whose last entry left stays in the
    table, empty, until the next tick. *)
Theorem empty_records_deleted_by_sweep :
  (∀ now s p q, wf s →
     Map_get p (productQueues (cleanupExpiredItems now s).1) = Some q →
     ProductQueue.items q ≠ [])
  ∧ (∀ u p qid s, (productQueues (leaveQueue u p qid s).1.2).*1 = (productQueues s).*1)
  ∧ (∀ u p qty s,
       (productQueues (processSuccessfulPayment u p qty s).1.2).*1 = (productQueues s).*1).
Proof.
  split_and!.
  - intros now s p q Hwf. rewrite cleanupExpiredItems_eq by done. simpl. intros Hq.
    by destruct (sweep_table_max now _ _ _ (wf_keys s Hwf) Hq) as (_ & _ & _ & ?).
  - apply leave_keeps_keys.
  - intros u p qty s. unfold processSuccessfulPayment, updateActualStock.
    pose proof (leave_keeps_keys u p None s) as H.
    by destruct (leaveQueue u p None s) as [[??]?].
Qed.

(** C5, as stated, fails: after [A], the only entry of the queue of
    [R], leaves, the queue is empty and its record is still in the
    table. *)
Lemma leave_last_entry_keeps_record :
  ¬ (∀ u p qid s,
       (leaveQueue u p qid s).1.1 = true →
       queue_items (leaveQueue u p qid s).1.2 p = [] →
       Map_get p (productQueues (leaveQueue u p qid s).1.2) = None).
Proof.
  intros H. specialize (H "A" "R" None shop1).
  assert (Hgone : Map_get "R" (productQueues (leaveQueue "A" "R" None shop1).1.2) = None)
    by (apply H; by vm_compute).
  vm_compute in Hgone. discriminate Hgone.
Qed.

(** ** Conservation *)

Lemma conserved_joined env u p qty email name stock s truth :
  conserved truth s → conserved truth (joined env u p qty email name stock s).
Proof.
  intros Hcons p' st'. unfold reserved_total. rewrite queue_items_joined. simpl.
  rewrite lookup_alter. destruct (decide (p = p')) as [<-|]; [|apply Hcons].
  destruct (productModel s !! p) as [st|] eqn:Hst; simpl; [|done].
  intros [= <-]. rewrite total_quantity_app. specialize (Hcons p st Hst).
  unfold reserved_total, total_quantity in *. simpl. lia.
Qed.

Lemma conserved_left u p i e q s truth :
  Map_get p (productQueues s) = Some q →
  ProductQueue.items q !! i = Some e →
  conserved truth s → conserved truth (left_state u p i e q s).
Proof.
  intros Hq Hi Hcons p' st'. unfold reserved_total.
  rewrite (queue_items_left _ _ _ _ _ _ _ Hq). simpl.
  rewrite lookup_alter. destruct (decide (p = p')) as [<-|]; [|apply Hcons].
  destruct (productModel s !! p) as [st|] eqn:Hst; simpl; [|done].
  intros [= <-]. rewrite <- (queue_items_Some _ _ _ Hq) in Hi.
  rewrite (total_quantity_delete _ _ _ Hi). specialize (Hcons p st Hst).
  unfold reserved_total in Hcons. lia.
Qed.

Lemma conserved_swept now s truth :
  wf s → conserved truth s → conserved truth (swept now s).1.
Proof.
  intros Hwf Hcons p st'. unfold reserved_total.
  rewrite (queue_items_swept now s p Hwf). simpl.
  rewrite (sweep_stock now _ _ _ (wf_keys s Hwf)).
  change (table_items (productQueues s) p) with (queue_items s p).
  destruct (productModel s !! p) as [st|] eqn:Hst; simpl; [|done].
  intros [= <-]. specialize (Hcons p st Hst). unfold reserved_total in Hcons.
  pose proof (total_quantity_filter now (queue_items s p)). lia.
Qed.

(** ** The sweep *)

(** C6. After a sweep tick at time [now] on a consistent state, the FIFO
    of every product is the list of its entries with [expiresAt > now],
    in their order; the stock of the product has grown by the total
    quantity of its entries with [expiresAt ≤ now]; each such entry is
    gone from the FIFO, its user no longer has the product in the
    reverse index, and the tick emitted exactly one [queue.timeout] for
    it.  An entry that is still live is kept and gets no
    [queue.timeout]. *)
Theorem sweep_reclaims_expired now s p :
  wf s →
  let '(s', evs) := cleanupExpiredItems now s in
  queue_items s' p = filter (live now) (queue_items s p)
  ∧ productModel s' !! p
    = (λ stock, stock + total_quantity (filter (expired now) (queue_items s p)))
        <$> productModel s !! p
  ∧ (∀ e, e ∈ queue_items s p → expired now e →
       e ∉ queue_items s' p
       ∧ isUserInQueue (QueueItem.userId e) p s' = false
       ∧ occurrences (queue_timeout (QueueItem.userId e) p (QueueItem.id e)) evs = 1%nat)
  ∧ (∀ e, e ∈ queue_items s p → live now e →
       e ∈ queue_items s' p
       ∧ occurrences (queue_timeout (QueueItem.userId e) p (QueueItem.id e)) evs = 0%nat).
Proof.
  intros Hwf. rewrite cleanupExpiredItems_eq by done.
  pose proof (queue_items_swept now s p Hwf) as Hitems.
  unfold swept in *. simpl in Hitems. rewrite Hitems.
  destruct Hwf as [Hkeys Hids Husers Hidx]. split_and!.
  - done.
  - simpl. by rewrite (sweep_stock now _ _ _ Hkeys).
  - intros e He Hexp. split_and!.
    + intros [Hlive _]%list_elem_of_filter. unfold live, expired in *. lia.
    + apply isUserInQueue_false. simpl. rewrite (sweep_index now _ _ _ _ Hkeys).
      intros [_ Hno]. apply Hno. exists e. split; [|done].
      by apply list_elem_of_filter.
    + unfold queue_items in He.
      destruct (Map_get p (productQueues s)) as [q|] eqn:Hq;
        [|by apply elem_of_nil in He].
      apply (swept_events_count now _ p q); [done| |  |done..].
      * by apply Map_get_Some_elem.
      * specialize (Hids p). by rewrite (queue_items_Some _ _ _ Hq) in Hids.
  - intros e He Hlive. split.
    + by apply list_elem_of_filter.
    + apply occurrences_0.
      intros (q' & e' & Hin & [Hexp He']%list_elem_of_filter & Hu & Hi)%timeout_in_swept.
      apply (Map_elem_get _ _ _ Hkeys) in Hin.
      rewrite <- (queue_items_Some _ _ _ Hin) in He'.
      assert (e' = e) by by eapply (NoDup_fmap_eq QueueItem.id); [apply (Hids p)|..].
      subst. unfold live, expired in *. lia.
Qed.

Lemma sweep_reclaims_expired_witness :
  let '(s', evs) := cleanupExpiredItems 900100 shop1 in
  queue_items s' "R" = filter (live 900100) (queue_items shop1 "R")
  ∧ productModel s' !! "R"
    = (λ stock, stock + total_quantity (filter (expired 900100) (queue_items shop1 "R")))
        <$> productModel shop1 !! "R"
  ∧ (∀ e, e ∈ queue_items shop1 "R" → expired 900100 e →
       e ∉ queue_items s' "R"
       ∧ isUserInQueue (QueueItem.userId e) "R" s' = false
       ∧ occurrences (queue_timeout (QueueItem.userId e) "R" (QueueItem.id e)) evs
         = 1%nat)
  ∧ (∀ e, e ∈ queue_items shop1 "R" → live 900100 e →
       e ∈ queue_items s' "R"
       ∧ occurrences (queue_timeout (QueueItem.userId e) "R" (QueueItem.id e)) evs
         = 0%nat).
Proof.
  apply (sweep_reclaims_expired 900100 shop1 "R"). apply wf_shop1.
Defined.

(** ** Reading the queue *)

Lemma find_user_first u l i e :
  l !! i = Some e → QueueItem.userId e = u →
  (∀ j y, l !! j = Some y → (j < i)%nat → QueueItem.userId y ≠ u) →
  list_find (λ item, QueueItem.userId item = u) l = Some (i, e).
Proof. intros Hi Hu Hfirst. apply list_find_Some. split_and!; [done..|]. eauto. Qed.

Lemma find_user_none u l :
  (∀ item, item ∈ l → QueueItem.userId item ≠ u) →
  list_find (λ item, QueueItem.userId item = u) l = None.
Proof. intros Hno. apply list_find_None, Forall_forall. eauto. Qed.

Lemma status_found u p s i e :
  queue_items s p !! i = Some e → QueueItem.userId e = u →
  (∀ j y, queue_items s p !! j = Some y → (j < i)%nat → QueueItem.userId y ≠ u) →
  getQueueStatus u p s
  = mkQueueStatus true (Some (Z.of_nat i + 1))
      (Some (calculateEstimatedWaitTime (Z.of_nat i + 1)))
      (Some (QueueItem.expiresAt e)).
Proof.
  intros Hi Hu Hfirst. unfold getQueueStatus. unfold queue_items in Hi, Hfirst.
  destruct (Map_get p (productQueues s)) as [q|]; [|done].
  by rewrite (find_user_first u _ i e).
Qed.

Lemma status_absent u p s :
  ¬ has_entry s u p → getQueueStatus u p s = mkQueueStatus false None None None.
Proof.
  intros Hno. unfold getQueueStatus.
  destruct (Map_get p (productQueues s)) as [q|] eqn:Hq; [|done].
  rewrite find_user_none; [done|]. intros item Hin Hu. apply Hno.
  exists item. by rewrite (queue_items_Some _ _ _ Hq).
Qed.

(** The admitted branch of [joinQueue], from the checks as the caller
    sees them. *)
Lemma joinQueue_admitted env u p qty email name s stock :
  wf s →
  productModel s !! p = Some stock →
  0 < qty → qty ≤ stock →
  ¬ has_entry s u p →
  ¬ at_capacity s p →
  joinQueue env u p qty email name s
  = (mkJoinResult true (Some (Z.of_nat (length (queue_items s p)) + 1))
       (Some (calculateEstimatedWaitTime (Z.of_nat (length (queue_items s p)) + 1)))
       (Some (generateQueueId env)) "Successfully joined the queue",
     joined env u p qty email name stock s,
     [queue_joined u p (generateQueueId env) (Z.of_nat (length (queue_items s p)) + 1)]).
Proof.
  intros Hwf Hstock Hpos Hle Hout Hcap.
  destruct (joinQueue_cases env u p qty email name s)
    as [Hnone|stock' Hs Hlt|stock' Hs _ Hin|stock' Hs _ _ Hfull|stock' Hs _ Hidx Hfree].
  - congruence.
  - rewrite Hstock in Hs. injection Hs as <-. lia.
  - destruct Hout. by apply (wf_index s Hwf).
  - rewrite Hstock in Hs. injection Hs as <-.
    destruct Hcap. by apply (full_at_capacity s p stock qty).
  - rewrite Hstock in Hs. by injection Hs as <-.
Qed.

Lemma status_inQueue u p s :
  inQueue (getQueueStatus u p s) = true ↔ has_entry s u p.
Proof.
  split.
  - intros Hin. unfold getQueueStatus in Hin.
    destruct (Map_get p (productQueues s)) as [q|] eqn:Hq; [|done].
    destruct (list_find _ _) as [[i e]|] eqn:Hfind; [|done].
    apply list_find_Some in Hfind as (Hi & Hu & _).
    exists e. rewrite (queue_items_Some _ _ _ Hq).
    split; [by eapply list_elem_of_lookup_2|done].
  - intros Hin. destruct (inQueue (getQueueStatus u p s)) eqn:Hst; [done|].
    unfold getQueueStatus in Hst. destruct Hin as (e & He & Hu).
    unfold queue_items in He.
    destruct (Map_get p (productQueues s)) as [q|]; [|by apply elem_of_nil in He].
    destruct (list_find _ _) as [[j y]|] eqn:Hfind; [done|].
    apply list_find_None in Hfind. rewrite Forall_forall in Hfind.
    by destruct (Hfind e).
Qed.

(** X1. [getQueueStatus] answers [inQueue] exactly when the user has an
    entry in the FIFO of the product.  It then reports the first entry
    of the user: its index plus one as position, the wait estimate of
    that position, and the entry's [expiresAt].  Without an entry (or
    without a record) all three are absent. *)
Theorem status_reports_first_entry u p s :
  (inQueue (getQueueStatus u p s) = true ↔ has_entry s u p)
  ∧ (∀ i e,
       queue_items s p !! i = Some e → QueueItem.userId e = u →
       (∀ j y, queue_items s p !! j = Some y → (j < i)%nat → QueueItem.userId y ≠ u) →
       getQueueStatus u p s
       = mkQueueStatus true (Some (Z.of_nat i + 1))
           (Some (calculateEstimatedWaitTime (Z.of_nat i + 1)))
           (Some (QueueItem.expiresAt e)))
  ∧ (¬ has_entry s u p → getQueueStatus u p s = mkQueueStatus false None None None).
Proof.
  split_and!; [apply status_inQueue|apply status_found|apply status_absent].
Qed.

(** X2. Right after a join that was admitted, [getQueueStatus] for the
    same user and product reports the position and the wait the join
    returned, and as [expiresAt] the clock reading of the join plus the
    hold duration. *)
Theorem status_after_join env u p qty email name s stock :
  wf s →
  productModel s !! p = Some stock →
  0 < qty → qty ≤ stock →
  ¬ has_entry s u p →
  ¬ at_capacity s p →
  let '(r, s', _) := joinQueue env u p qty email name s in
  (getQueueStatus u p s'
   = mkQueueStatus true (position r) (estimatedWaitTime r)
       (Some (now_expiresAt env + holdDuration s p))).
Proof.
  intros Hwf Hstock Hpos Hle Hout Hcap.
  rewrite (joinQueue_admitted env u p qty email name s stock) by done. simpl.
  rewrite (status_found u p _ (length (queue_items s p))
             (new_item env u p qty email name s)); [done| |done|].
  - rewrite queue_items_joined, decide_True by done.
    by rewrite lookup_app_r, Nat.sub_diag by lia.
  - intros j y Hj Hlt Hu. apply Hout. exists y. split; [|done].
    rewrite queue_items_joined, decide_True in Hj by done.
    rewrite lookup_app_l in Hj by done. by eapply list_elem_of_lookup_2.
Qed.

Lemma shop1_B_absent : ¬ has_entry shop1 "B" "R".
Proof.
  intros (item & Hin & Hu). vm_compute in Hin.
  apply list_elem_of_singleton in Hin. subst. discriminate Hu.
Qed.

Lemma shop1_not_full : ¬ at_capacity shop1 "R".
Proof.
  intros (q & Hq & Hfull). vm_compute in Hq. injection Hq as <-.
  vm_compute in Hfull. by apply Hfull.
Qed.

Lemma status_after_join_witness :
  let '(r, s', _) :=
    joinQueue (mkJoinEnv "q2" 200 200 200) "B" "R" 1 "b@shop" "B" shop1 in
  (getQueueStatus "B" "R" s'
   = mkQueueStatus true (position r) (estimatedWaitTime r)
       (Some (now_expiresAt (mkJoinEnv "q2" 200 200 200) + holdDuration shop1 "R"))).
Proof.
  apply (status_after_join (mkJoinEnv "q2" 200 200 200) "B" "R" 1 "b@shop" "B" shop1 1).
  - apply wf_shop1.
  - by vm_compute.
  - lia.
  - lia.
  - apply shop1_B_absent.
  - apply shop1_not_full.
Defined.

(** ** Leaving, again *)

Lemma leaveQueue_found u p qid s q i e :
  Map_get p (productQueues s) = Some q →
  list_find (leave_matches u qid) (ProductQueue.items q) = Some (i, e) →
  leaveQueue u p qid s
  = (true, left_state u p i e q s,
     updateQueuePositions (ProductQueue.with_items q (delete i (ProductQueue.items q)))
     ++ [queue_left u p (QueueItem.id e) "manual"]).
Proof. intros Hq Hfind. unfold leaveQueue. by rewrite Hq, Hfind. Qed.

Lemma left_state_no_entry u p i e q s :
  wf s →
  Map_get p (productQueues s) = Some q →
  ProductQueue.items q !! i = Some e →
  QueueItem.userId e = u →
  ¬ has_entry (left_state u p i e q s) u p.
Proof.
  intros Hwf Hq Hi Hu (item & Hin & Hu').
  rewrite (queue_items_left _ _ _ _ _ _ _ Hq), decide_True in Hin by done.
  rewrite <- (queue_items_Some _ _ _ Hq) in Hi.
  eapply (delete_key_gone QueueItem.userId); [apply (wf_users s Hwf p)|done..|].
  congruence.
Qed.

Lemma leaveQueue_absent u p qid s :
  ¬ has_entry s u p → leaveQueue u p qid s = (false, s, []).
Proof.
  intros Hno. destruct (leaveQueue_cases u p qid s) as [|q i e Hq Hi [Hu _] _]; [done|].
  destruct Hno. exists e. split; [|done].
  rewrite (queue_items_Some _ _ _ Hq). by eapply list_elem_of_lookup_2.
Qed.

(** X3. [leaveQueue] answers [true] exactly when some entry of the FIFO
    belongs to the user and, when a non-empty reservation id is given,
    carries that id.  When it answers [false], because the product has
    no record, the user has no entry, or the id does not match, nothing
    is released, no event is emitted and the state is untouched. *)
Theorem leave_succeeds_iff_match u p qid s :
  ((leaveQueue u p qid s).1.1 = true
   ↔ ∃ item, item ∈ queue_items s p ∧ leave_matches u qid item)
  ∧ ((leaveQueue u p qid s).1.1 = false → leaveQueue u p qid s = (false, s, [])).
Proof.
  destruct (leaveQueue_cases u p qid s) as [Hno|q i e Hq Hi He _]; simpl.
  - split; [|done]. split; [done|]. intros (item & Hin & Hm). by destruct (Hno item).
  - split; [|done]. split; [|done]. intros _. exists e. split; [|done].
    rewrite (queue_items_Some _ _ _ Hq). by eapply list_elem_of_lookup_2.
Qed.

(** X4. A leave that succeeded is final.  In the state it leaves, the
    user has no entry for the product, the reverse index and
    [getQueueStatus] say so, and any further leave of the same user and
    product answers [false] without releasing stock again. *)
Theorem leave_is_final u p qid s :
  wf s →
  (leaveQueue u p qid s).1.1 = true →
  let s' := (leaveQueue u p qid s).1.2 in
  ¬ has_entry s' u p
  ∧ isUserInQueue u p s' = false
  ∧ getQueueStatus u p s' = mkQueueStatus false None None None
  ∧ ∀ qid', leaveQueue u p qid' s' = (false, s', []).
Proof.
  intros Hwf. destruct (leaveQueue_cases u p qid s) as [|q i e Hq Hi [Hu _] _]; simpl;
    [done|]. intros _.
  assert (Hno := left_state_no_entry u p i e q s Hwf Hq Hi Hu).
  assert (Hwf' := wf_left u p i e q s Hwf Hq Hi Hu).
  split_and!; [done| |by apply status_absent|intros; by apply leaveQueue_absent].
  destruct (isUserInQueue u p (left_state u p i e q s)) eqn:Hidx; [|done].
  destruct Hno. by apply (wf_index _ Hwf').
Qed.

Lemma wf_join env u p qty email name s :
  wf s →
  generateQueueId env ∉ (QueueItem.id <$> queue_items s p) →
  wf (joinQueue env u p qty email name s).1.2.
Proof.
  intros Hwf Hfresh.
  pose proof (wf_exec (op_join env u p qty email name) s Hwf Hfresh) as H.
  simpl in H. by destruct (joinQueue env u p qty email name s) as [[??]?].
Qed.

Lemma wf_shop_full : wf shop_full.
Proof.
  unfold shop_full, join_all. cbn [foldl].
  repeat (apply wf_join; [|compute_done]).
  apply wf_empty.
Qed.

Lemma leave_is_final_witness :
  let s' := (leaveQueue "U3" "R" None shop_full).1.2 in
  ¬ has_entry s' "U3" "R"
  ∧ isUserInQueue "U3" "R" s' = false
  ∧ getQueueStatus "U3" "R" s' = mkQueueStatus false None None None
  ∧ ∀ qid', leaveQueue "U3" "R" qid' s' = (false, s', []).
Proof.
  apply (leave_is_final "U3" "R" None shop_full).
  - apply wf_shop_full.
  - by vm_compute.
Defined.

(** ** Joining and leaving compose *)

Lemma delete_last {A} (l : list A) x : delete (length l) (l ++ [x]) = l.
Proof. induction l as [|y l IH]; simpl; [done|]. by rewrite IH. Qed.

Lemma bool_eq_true_iff (a b : bool) : (a = true ↔ b = true) → a = b.
Proof. destruct a, b; intros [H1 H2]; try done; [by rewrite H1|by rewrite H2]. Qed.

Lemma find_new_item env u p qty email name s qid :
  ¬ has_entry s u p →
  qid = None ∨ qid = Some (generateQueueId env) →
  list_find (leave_matches u qid) (queue_items s p ++ [new_item env u p qty email name s])
  = Some (length (queue_items s p), new_item env u p qty email name s).
Proof.
  intros Hno Hqid. apply list_find_Some. split_and!.
  - by rewrite lookup_app_r, Nat.sub_diag by lia.
  - split; [done|]. destruct Hqid as [->| ->]; [done|by right].
  - intros j y Hj Hlt [Hu _]. apply Hno. exists y. split; [|done].
    rewrite lookup_app_l in Hj by done. by eapply list_elem_of_lookup_2.
Qed.

(** X5. Joining and then leaving is a round trip.  When a join is
    admitted and the same user leaves right away (with no reservation id
    or with the id the join returned), the leave succeeds, and every
    FIFO, the whole stock table and every answer of the reverse index are
    as before the join; the leave announces the unchanged positions of
    the entries that were there and then [queue.left] with the id of the
    join. *)
Theorem join_then_leave_restores env u p qty email name s stock qid :
  wf s →
  productModel s !! p = Some stock →
  0 < qty → qty ≤ stock →
  ¬ has_entry s u p →
  ¬ at_capacity s p →
  qid = None ∨ qid = Some (generateQueueId env) →
  let '(_, s1, _) := joinQueue env u p qty email name s in
  let '(ok, s2, evs) := leaveQueue u p qid s1 in
  ok = true
  ∧ (∀ p', queue_items s2 p' = queue_items s p')
  ∧ productModel s2 = productModel s
  ∧ (∀ u' p', isUserInQueue u' p' s2 = isUserInQueue u' p' s)
  ∧ evs = imap (λ k item,
                  queue_position_updated (QueueItem.userId item)
                    (QueueItem.productId item) (QueueItem.id item)
                    (Z.of_nat k + 1)
                    (calculateEstimatedWaitTime (Z.of_nat k + 1)))
               (queue_items s p)
          ++ [queue_left u p (generateQueueId env) "manual"].
Proof.
  intros Hwf Hstock Hpos Hle Hout Hcap Hqid.
  rewrite (joinQueue_admitted env u p qty email name s stock) by done.
  set (q1 := ProductQueue.with_items (target_queue s p stock)
               (queue_items s p ++ [new_item env u p qty email name s])).
  assert (Hq1 : Map_get p (productQueues (joined env u p qty email name stock s))
                = Some q1) by apply Map_get_set_eq.
  rewrite (leaveQueue_found u p qid _ q1 (length (queue_items s p))
             (new_item env u p qty email name s) Hq1)
    by by apply find_new_item.
  split_and!.
  - done.
  - intros p'. rewrite (queue_items_left _ _ _ _ _ _ _ Hq1), !queue_items_joined.
    destruct (decide (p = p')) as [<-|]; [|done].
    rewrite decide_True by done. apply delete_last.
  - simpl. apply map_eq. intros p'.
    destruct (decide (p = p')) as [<-|]; [|by rewrite !lookup_alter_ne].
    rewrite !lookup_alter_eq.
    destruct (productModel s !! p); simpl; [f_equal; lia|done].
  - intros u' p'. apply bool_eq_true_iff. rewrite !isUserInQueue_true.
    change (userQueues (left_state u p (length (queue_items s p))
                          (new_item env u p qty email name s) q1
                          (joined env u p qty email name stock s)))
      with (userQueues_delete u p (userQueues (addUserQueue u p s))).
    rewrite in_index_delete, in_index_add. split; [tauto|].
    intros Hin. split; [by left|]. intros [-> ->].
    apply Hout. by apply (wf_index s Hwf), isUserInQueue_true.
  - unfold updateQueuePositions, q1. simpl. by rewrite delete_last.
Qed.

Lemma join_then_leave_restores_witness :
  let '(_, s1, _) :=
    joinQueue (mkJoinEnv "q2" 200 200 200) "B" "R" 1 "b@shop" "B" shop1 in
  let '(ok, s2, evs) := leaveQueue "B" "R" None s1 in
  ok = true
  ∧ (∀ p', queue_items s2 p' = queue_items shop1 p')
  ∧ productModel s2 = productModel shop1
  ∧ (∀ u' p', isUserInQueue u' p' s2 = isUserInQueue u' p' shop1)
  ∧ evs = imap (λ k item,
                  queue_position_updated (QueueItem.userId item)
                    (QueueItem.productId item) (QueueItem.id item)
                    (Z.of_nat k + 1)
                    (calculateEstimatedWaitTime (Z.of_nat k + 1)))
               (queue_items shop1 "R")
          ++ [queue_left "B" "R" (generateQueueId (mkJoinEnv "q2" 200 200 200)) "manual"].
Proof.
  apply (join_then_leave_restores (mkJoinEnv "q2" 200 200 200)
           "B" "R" 1 "b@shop" "B" shop1 1 None).
  - apply wf_shop1.
  - by vm_compute.
  - lia.
  - lia.
  - apply shop1_B_absent.
  - apply shop1_not_full.
  - by left.
Defined.

(** ** Bounds *)

Lemma total_quantity_nonneg l :
  (∀ item, item ∈ l → 0 < QueueItem.quantity item) → 0 ≤ total_quantity l.
Proof.
  unfold total_quantity. induction l as [|x l IH]; intros Hpos; simpl; [done|].
  assert (0 < QueueItem.quantity x) by apply Hpos, list_elem_of_here.
  assert (0 ≤ foldr (λ item acc, QueueItem.quantity item + acc) 0 l).
  { apply IH. intros y Hy. by apply Hpos, list_elem_of_further. }
  lia.
Qed.

Lemma bounded_joined env u p qty email name stock s :
  bounded s →
  productModel s !! p = Some stock → 0 < qty → qty ≤ stock →
  Z.of_nat (length (queue_items s p)) < ProductQueue.maxQueueSize (target_queue s p stock) →
  bounded (joined env u p qty email name stock s).
Proof.
  intros [Hstock Hqty Hcap] Hs Hpos Hle Hfree. split.
  - intros p' st'. simpl. rewrite lookup_alter.
    destruct (decide (p = p')) as [<-|]; [|apply Hstock].
    rewrite Hs. simpl. intros [= <-]. lia.
  - intros p' item. rewrite queue_items_joined.
    destruct (decide (p = p')) as [<-|]; [|apply Hqty].
    intros [Hin|Hin%list_elem_of_singleton]%elem_of_app; [by eapply Hqty|by subst].
  - intros p' q. simpl. rewrite Map_get_set.
    destruct (decide (p = p')) as [<-|]; [|apply Hcap].
    intros [= <-]. simpl. rewrite length_app. simpl. split; [lia|].
    rewrite target_queue_max.
    destruct (Map_get p (productQueues s)) as [q|] eqn:Hq; [by apply (Hcap p q)|].
    unfold DEFAULT_QUEUE_SIZE. lia.
Qed.

Lemma bounded_turned_away p stock qty s :
  bounded s → 0 < qty → qty ≤ stock → bounded (turned_away p stock s).
Proof.
  intros [Hstock Hqty Hcap] Hpos Hle. split.
  - apply Hstock.
  - intros p' item. rewrite queue_items_turned_away. apply Hqty.
  - intros p' q. simpl. rewrite Map_get_set.
    destruct (decide (p = p')) as [<-|]; [|apply Hcap].
    intros [= <-]. unfold target_queue.
    destruct (Map_get p (productQueues s)) as [q|] eqn:Hq; [by apply (Hcap p q)|].
    simpl. unfold DEFAULT_QUEUE_SIZE. lia.
Qed.

Lemma bounded_left u p i e q s :
  bounded s →
  Map_get p (productQueues s) = Some q →
  ProductQueue.items q !! i = Some e →
  bounded (left_state u p i e q s).
Proof.
  intros [Hstock Hqty Hcap] Hq Hi.
  assert (He : 0 < QueueItem.quantity e).
  { apply (Hqty p). rewrite (queue_items_Some _ _ _ Hq).
    by eapply list_elem_of_lookup_2. }
  split.
  - intros p' st'. simpl. rewrite lookup_alter.
    destruct (decide (p = p')) as [<-|]; [|apply Hstock].
    destruct (productModel s !! p) as [st|] eqn:Hst; simpl; [|done].
    intros [= <-]. specialize (Hstock p st Hst). lia.
  - intros p' item. rewrite (queue_items_left _ _ _ _ _ _ _ Hq).
    destruct (decide (p = p')) as [<-|]; [|apply Hqty].
    intros Hin%list_elem_of_delete_inv. by eapply Hqty.
  - intros p' q'. simpl. rewrite Map_get_set.
    destruct (decide (p = p')) as [<-|]; [|apply Hcap].
    intros [= <-]. simpl. destruct (Hcap p q Hq) as [Hlen Hmax]. split; [|done].
    pose proof (sublist_length _ _ (sublist_delete (ProductQueue.items q) i)). lia.
Qed.

Lemma bounded_swept now s : wf s → bounded s → bounded (swept now s).1.
Proof.
  intros Hwf [Hstock Hqty Hcap]. split.
  - intros p st'. simpl. rewrite (sweep_stock now _ _ _ (wf_keys s Hwf)).
    destruct (productModel s !! p) as [st|] eqn:Hst; simpl; [|done].
    intros [= <-]. specialize (Hstock p st Hst).
    assert (0 ≤ total_quantity (filter (expired now) (table_items (productQueues s) p))).
    { apply total_quantity_nonneg. intros item [_ Hin]%list_elem_of_filter.
      by apply (Hqty p). }
    lia.
  - intros p item. rewrite (queue_items_swept now s p Hwf).
    intros [_ Hin]%list_elem_of_filter. by eapply Hqty.
  - intros p q' Hq'. simpl in Hq'.
    pose proof (sweep_table_items now _ p (wf_keys s Hwf)) as Hitems.
    unfold table_items in Hitems. rewrite Hq' in Hitems.
    destruct (sweep_table_max now _ _ _ (wf_keys s Hwf) Hq') as (q & Hq & Hmax & _).
    rewrite Hq in Hitems. destruct (Hcap p q Hq) as [Hlen Hle].
    rewrite Hitems, Hmax. split; [|done].
    pose proof (length_filter (live now) (ProductQueue.items q)). lia.
Qed.

Lemma bounded_exec op s :
  wf s → bounded s → positive_quantity op → bounded (exec op s).1.
Proof.
  intros Hwf Hb Hpos.
  destruct op as [env u p qty email name|u p qid|u p qty|now]; simpl in *.
  - destruct (joinQueue_cases env u p qty email name s); simpl; try done.
    + by apply (bounded_turned_away p stock qty).
    + by apply bounded_joined.
  - destruct (leaveQueue_cases u p qid s) as [|q i e Hq Hi _ _]; simpl; [done|].
    by apply bounded_left.
  - unfold processSuccessfulPayment, updateActualStock.
    destruct (leaveQueue_cases u p None s) as [|q i e Hq Hi _ _]; simpl; [done|].
    by apply bounded_left.
  - rewrite cleanupExpiredItems_eq by done. by apply bounded_swept.
Qed.

(** X6. Bounds kept by the operations, applied one at a time, each run
    to completion.  Take a consistent state in which no stock is
    negative, every entry has a positive quantity, every FIFO was within
    its capacity when its last entry was let in (its length is below
    [maxQueueSize + 1]) and no capacity exceeds [DEFAULT_QUEUE_SIZE]: a
    join for a positive quantity, a leave, a payment or a sweep tick
    leaves a state with the same properties.  In such a state no FIFO
    holds more than 10 entries. *)
Theorem bounds_preserved op s :
  wf s → bounded s →
  fresh_id op s → positive_quantity op →
  wf (exec op s).1 ∧ bounded (exec op s).1
  ∧ ∀ p, (length (queue_items (exec op s).1 p) ≤ 10)%nat.
Proof.
  intros Hwf Hb Hfresh Hpos.
  pose proof (bounded_exec op s Hwf Hb Hpos) as Hb'.
  split_and!; [by apply wf_exec|done|].
  intros p. unfold queue_items.
  destruct (Map_get p (productQueues (exec op s).1)) as [q|] eqn:Hq; [|simpl; lia].
  destruct (within_capacity _ Hb' p q Hq) as [Hlen Hmax].
  unfold DEFAULT_QUEUE_SIZE in Hmax. lia.
Qed.

Lemma bounded_empty db :
  (∀ p stock, db !! p = Some stock → 0 ≤ stock) → bounded (mkService [] ∅ db).
Proof.
  intros Hdb. split; simpl; [done| |done].
  intros p item Hin. by apply elem_of_nil in Hin.
Qed.

Lemma bounds_preserved_witness :
  wf (exec (op_join envA "A" "R" 2 "a@shop" "A") shop0).1
  ∧ bounded (exec (op_join envA "A" "R" 2 "a@shop" "A") shop0).1
  ∧ ∀ p, (length (queue_items (exec (op_join envA "A" "R" 2 "a@shop" "A") shop0).1 p)
          ≤ 10)%nat.
Proof.
  apply (bounds_preserved (op_join envA "A" "R" 2 "a@shop" "A") shop0).
  - apply wf_empty.
  - apply bounded_empty. intros p stock.
    destruct (decide (p = "R")) as [->|Hne].
    + rewrite lookup_singleton_eq. intros [= <-]. lia.
    + rewrite lookup_singleton_ne by done. done.
  - simpl. apply not_elem_of_nil.
  - simpl. lia.
Defined.

(** ** A sweep with nothing to reclaim *)

Lemma filter_none {A} (P : A → Prop) `{∀ x, Decision (P x)} (l : list A) :
  (∀ x, x ∈ l → ¬ P x) → filter P l = [].
Proof.
  induction l as [|x l IH]; intros Hno; [done|].
  rewrite filter_cons_False by apply Hno, list_elem_of_here.
  apply IH. intros y Hy. by apply Hno, list_elem_of_further.
Qed.

Lemma all_live_cons now k q l :
  all_live now ((k, q) :: l) →
  expired_of now q = []
  ∧ filter (live now) (ProductQueue.items q) = ProductQueue.items q
  ∧ all_live now l.
Proof.
  intros Hlive. split_and!.
  - apply filter_none. intros e He Hexp.
    assert (live now e) by (apply (Hlive k q); [apply list_elem_of_here|done]).
    unfold live, expired in *. lia.
  - apply filter_all. intros e He. apply (Hlive k q); [apply list_elem_of_here|done].
  - intros p' q' e Hin. apply (Hlive p' q'). by apply list_elem_of_further.
Qed.

Lemma sweep_table_all_live now l :
  all_live now l →
  omap (sweep_entry now) l = filter (λ kq, ProductQueue.items kq.2 ≠ []) l.
Proof.
  induction l as [|[k q] l IH]; intros Hlive; [done|].
  destruct (all_live_cons _ _ _ _ Hlive) as (_ & Hfilter & Hrest).
  rewrite filter_cons.
  destruct (decide (ProductQueue.items (k, q).2 ≠ [])) as [Hne|Hnil].
  - simpl in Hne. rewrite (omap_cons_Some _ _ (k, q)); [by rewrite IH|].
    unfold sweep_entry. simpl. rewrite Hfilter.
    rewrite decide_False by (intros Hlen; by apply nil_length_inv in Hlen).
    by destruct q.
  - simpl in Hnil. apply dec_stable in Hnil. rewrite omap_cons_None; [by apply IH|].
    unfold sweep_entry. simpl. by rewrite Hfilter, Hnil.
Qed.

Lemma sweep_index_all_live now l uq :
  all_live now l →
  foldl (λ uq entry, unindex_all entry.1 (expired_of now entry.2) uq) uq l = uq.
Proof.
  induction l as [|[k q] l IH]; intros Hlive; [done|].
  destruct (all_live_cons _ _ _ _ Hlive) as (Hexp & _ & Hrest).
  cbn [foldl]. simpl. rewrite Hexp. by apply IH.
Qed.

Lemma sweep_stock_all_live now l db :
  all_live now l →
  foldl (λ db entry, release_all entry.1 (expired_of now entry.2) db) db l = db.
Proof.
  induction l as [|[k q] l IH]; intros Hlive; [done|].
  destruct (all_live_cons _ _ _ _ Hlive) as (Hexp & _ & Hrest).
  cbn [foldl]. simpl. rewrite Hexp. by apply IH.
Qed.

Lemma sweep_events_all_live now l :
  all_live now l → l ≫= swept_events now = [].
Proof.
  induction l as [|[k q] l IH]; intros Hlive; [done|].
  destruct (all_live_cons _ _ _ _ Hlive) as (Hexp & _ & Hrest).
  rewrite bind_cons, (IH Hrest). unfold swept_events. simpl. by rewrite Hexp.
Qed.

Lemma all_live_table now s :
  (∀ p e, e ∈ queue_items s p → live now e) → wf s → all_live now (productQueues s).
Proof.
  intros Hlive Hwf p q e Hin He. apply (Hlive p).
  by rewrite (queue_items_Some _ _ _ (Map_elem_get _ _ _ (wf_keys s Hwf) Hin)).
Qed.

(** X7. A sweep tick at a time when no entry has expired reclaims
    nothing: it emits no event, leaves the stock table and the reverse
    index as they are, and keeps every FIFO.  Its one effect is to drop
    the records that hold no entry. *)
Theorem sweep_before_expiry now s :
  wf s →
  (∀ p e, e ∈ queue_items s p → live now e) →
  cleanupExpiredItems now s
  = (mkService (filter (λ kq, ProductQueue.items kq.2 ≠ []) (productQueues s))
       (userQueues s) (productModel s), []).
Proof.
  intros Hwf Hlive. rewrite cleanupExpiredItems_eq by done.
  pose proof (all_live_table now s Hlive Hwf) as Hall. unfold swept.
  by rewrite sweep_table_all_live, sweep_index_all_live, sweep_stock_all_live,
    sweep_events_all_live.
Qed.

Lemma sweep_before_expiry_witness :
  cleanupExpiredItems 900099 shop1
  = (mkService (filter (λ kq, ProductQueue.items kq.2 ≠ []) (productQueues shop1))
       (userQueues shop1) (productModel shop1), []).
Proof.
  apply (sweep_before_expiry 900099 shop1).
  - apply wf_shop1.
  - intros p e He. unfold queue_items in He.
    destruct (decide (p = "R")) as [->|Hne].
    + vm_compute in He. apply list_elem_of_singleton in He. subst. by vm_compute.
    + replace (Map_get p (productQueues shop1)) with (@None ProductQueue.t) in He.
      * by apply elem_of_nil in He.
      * symmetry. apply Map_get_None. vm_compute.
        intros Hin%list_elem_of_singleton. done.
Defined.

(** X8. Sweeping twice is sweeping once.  After a tick at time [now], a
    further tick at the same or an earlier clock reading changes nothing
    and emits nothing: no entry is released twice and no timeout is
    announced twice. *)
Theorem sweep_idempotent now now' s :
  wf s → now' ≤ now →
  cleanupExpiredItems now' (cleanupExpiredItems now s).1
  = ((cleanupExpiredItems now s).1, []).
Proof.
  intros Hwf Hle. rewrite (cleanupExpiredItems_eq now s Hwf).
  pose proof (wf_swept now s Hwf) as Hwf'.
  rewrite cleanupExpiredItems_eq by done.
  assert (Hall : all_live now' (productQueues (swept now s).1)).
  { apply all_live_table; [|done]. intros p e.
    rewrite (queue_items_swept now s p Hwf).
    intros [Hlive _]%list_elem_of_filter. unfold live in *. lia. }
  unfold swept at 1.
  rewrite sweep_table_all_live, sweep_index_all_live, sweep_stock_all_live,
    sweep_events_all_live by done.
  rewrite filter_all; [by destruct (swept now s).1|].
  intros [k q] Hin. simpl.
  apply (Map_elem_get _ _ _ (wf_keys _ Hwf')) in Hin. simpl in Hin.
  by destruct (sweep_table_max now _ _ _ (wf_keys s Hwf) Hin) as (_ & _ & _ & ?).
Qed.

Lemma sweep_idempotent_witness :
  cleanupExpiredItems 900100 (cleanupExpiredItems 900100 shop1).1
  = ((cleanupExpiredItems 900100 shop1).1, []).
Proof.
  apply (sweep_idempotent 900100 900100 shop1); [apply wf_shop1|lia].
Defined.

(** ** The reads agree *)

(** X9. In a consistent state the three ways to ask whether a user
    queues for a product give one answer: [isUserInQueue] (the reverse
    index), [getQueueStatus] (the FIFO) and [getUserQueues] (the user's
    list, which names each product once) all say yes exactly when the
    user has an entry in the FIFO of the product. *)
Theorem membership_reads_agree u p s :
  wf s →
  isUserInQueue u p s = inQueue (getQueueStatus u p s)
  ∧ (p ∈ getUserQueues u s ↔ has_entry s u p)
  ∧ NoDup (getUserQueues u s).
Proof.
  intros Hwf. split_and!.
  - apply bool_eq_true_iff. by rewrite status_inQueue, (wf_index s Hwf).
  - rewrite <- (wf_index s Hwf). unfold getUserQueues, isUserInQueue.
    destruct (userQueues s !! u) as [S|].
    + by rewrite elem_of_elements, bool_decide_eq_true.
    + split; [by intros ?%elem_of_nil|done].
  - unfold getUserQueues. destruct (userQueues s !! u); [apply NoDup_elements|].
    apply NoDup_nil_2.
Qed.

Lemma membership_reads_agree_witness :
  isUserInQueue "U3" "R" shop_full = inQueue (getQueueStatus "U3" "R" shop_full)
  ∧ ("R" ∈ getUserQueues "U3" shop_full ↔ has_entry shop_full "U3" "R")
  ∧ NoDup (getUserQueues "U3" shop_full).
Proof. apply (membership_reads_agree "U3" "R" shop_full). apply wf_shop_full. Defined.

(** ** Products do not interfere *)

(** X10. A join, a leave or a payment addressed to one product leaves
    every other product alone: its queue record, its stock and the
    answers of the reverse index for it are as before. *)
Theorem other_products_untouched op s p p' :
  op_product op = Some p → p' ≠ p →
  Map_get p' (productQueues (exec op s).1) = Map_get p' (productQueues s)
  ∧ productModel (exec op s).1 !! p' = productModel s !! p'
  ∧ ∀ u, isUserInQueue u p' (exec op s).1 = isUserInQueue u p' s.
Proof.
  intros Hop Hne.
  assert (Hleft : ∀ u0 i e q,
            Map_get p' (productQueues (left_state u0 p i e q s))
            = Map_get p' (productQueues s)
            ∧ productModel (left_state u0 p i e q s) !! p' = productModel s !! p'
            ∧ ∀ u, isUserInQueue u p' (left_state u0 p i e q s) = isUserInQueue u p' s).
  { intros u0 i e q. simpl. split_and!.
    - by rewrite Map_get_set_ne.
    - by rewrite lookup_alter_ne.
    - intros u. apply bool_eq_true_iff. rewrite !isUserInQueue_true. simpl.
      rewrite in_index_delete. split; [tauto|]. intros ?. split; [done|].
      by intros [_ ?]. }
  destruct op as [env u0 p0 qty email name|u0 p0 qid|u0 p0 qty|now];
    simpl in Hop; [injection Hop as ->..|done]; simpl.
  - destruct (joinQueue_cases env u0 p qty email name s); simpl; try done.
    + by rewrite Map_get_set_ne.
    + split_and!.
      * by rewrite Map_get_set_ne.
      * by rewrite lookup_alter_ne.
      * intros u. apply bool_eq_true_iff. rewrite !isUserInQueue_true.
        change (userQueues (joined env u0 p qty email name stock s))
          with (userQueues (addUserQueue u0 p s)).
        rewrite in_index_add. split; [|by left]. intros [?|[_ ?]]; done.
  - destruct (leaveQueue_cases u0 p qid s); simpl; [done|apply Hleft].
  - unfold processSuccessfulPayment, updateActualStock.
    destruct (leaveQueue_cases u0 p None s); simpl; [done|apply Hleft].
Qed.

Lemma other_products_untouched_witness :
  Map_get "S" (productQueues (exec (op_leave "A" "R" None) shop1).1)
  = Map_get "S" (productQueues shop1)
  ∧ productModel (exec (op_leave "A" "R" None) shop1).1 !! "S" = productModel shop1 !! "S"
  ∧ ∀ u, isUserInQueue u "S" (exec (op_leave "A" "R" None) shop1).1
         = isUserInQueue u "S" shop1.
Proof. by apply (other_products_untouched (op_leave "A" "R" None) shop1 "R" "S"). Defined.

(** ** Conservation across the operations *)

Lemma conserved_exec op s truth :
  wf s → conserved truth s → conserved truth (exec op s).1.
Proof.
  intros Hwf Hcons.
  destruct op as [env u p qty email name|u p qid|u p qty|now]; simpl.
  - destruct (joinQueue_cases env u p qty email name s); simpl; try done.
    + intros p' st'. unfold reserved_total. rewrite queue_items_turned_away.
      apply Hcons.
    + by apply conserved_joined.
  - destruct (leaveQueue_cases u p qid s) as [|q i e Hq Hi _ _]; simpl; [done|].
    by apply conserved_left.
  - unfold processSuccessfulPayment, updateActualStock.
    destruct (leaveQueue_cases u p None s) as [|q i e Hq Hi _ _]; simpl; [done|].
    by apply conserved_left.
  - rewrite cleanupExpiredItems_eq by done. by apply conserved_swept.
Qed.

Lemma stock_record_kept op s p :
  wf s → is_Some (productModel s !! p) → is_Some (productModel (exec op s).1 !! p).
Proof.
  intros Hwf Hsome.
  assert (Halter : ∀ (f : Z → Z) p0, is_Some (alter f p0 (productModel s) !! p)).
  { intros f p0. rewrite lookup_alter. destruct (decide (p0 = p)) as [->|]; [|done].
    by apply fmap_is_Some. }
  destruct op as [env u p0 qty email name|u p0 qid|u p0 qty|now]; simpl.
  - destruct (joinQueue_cases env u p0 qty email name s); simpl; done.
  - destruct (leaveQueue_cases u p0 qid s); simpl; [done|apply Halter].
  - unfold processSuccessfulPayment, updateActualStock.
    destruct (leaveQueue_cases u p0 None s); simpl; [done|apply Halter].
  - rewrite cleanupExpiredItems_eq by done. simpl.
    rewrite (sweep_stock now _ _ _ (wf_keys s Hwf)). by apply fmap_is_Some.
Qed.

Lemma conserved_shop1 : conserved truth0 shop1.
Proof.
  apply (conserved_exec (op_join envA "A" "R" 2 "a@shop" "A") shop0 truth0).
  - apply wf_empty.
  - intros p stock Hp. unfold truth0. rewrite Hp. unfold reserved_total, queue_items.
    simpl. unfold total_quantity. simpl. lia.
Qed.

(** C2, what the code does.  Take a consistent state in which, for
    every product, the quantities of the pending entries and the stock
    add up to the reference stock [truth].  After an operation (a join
    with a new id, a leave, a payment or a sweep tick) the state is
    consistent again, and the sum equals the reference stock the
    specification gives for the state after the operation,
    [spec_truth_after], in every case but one: a payment, for a quantity
    other than 0, of a user who holds a pending entry of a product with
    a stock record.  There the code releases the hold and
    [updateActualStock] changes nothing, so the sum stays at the
    reference stock of before the sale, above the one after it by the
    quantity sold.  Joins, leaves, sweep ticks and payments without an
    entry keep the invariant. *)
Theorem payment_breaks_conservation op s truth :
  wf s → fresh_id op s → conserved truth s →
  wf (exec op s).1
  ∧ (conserved (spec_truth_after op s truth) (exec op s).1
     ↔ ¬ ∃ u p quantity,
           op = op_payment u p quantity ∧ has_entry s u p
           ∧ quantity ≠ 0 ∧ is_Some (productModel s !! p)).
Proof.
  intros Hwf Hfresh Hcons. split; [by apply wf_exec|].
  pose proof (conserved_exec op s truth Hwf Hcons) as Hkept.
  destruct op as [env u p qty email name|u p qid|u p qty|now];
    try (cbn [spec_truth_after]; split; [intros _ (?&?&?&?&_); discriminate|done]).
  cbn [spec_truth_after].
  destruct (inQueue (getQueueStatus u p s)) eqn:Hstatus.
  - apply status_inQueue in Hstatus. split.
    + intros Hspec (u' & p' & q' & Heq & _ & Hq & Hsome). injection Heq as <- <- <-.
      destruct (stock_record_kept (op_payment u p qty) s p Hwf Hsome) as [stock' Hst'].
      specialize (Hkept p stock' Hst'). specialize (Hspec p stock' Hst').
      cbv beta in Hspec. rewrite decide_True in Hspec by done. lia.
    + intros Hno p' stock' Hst'. cbv beta.
      destruct (decide (p' = p)) as [->|]; [|by apply Hkept].
      destruct (decide (qty = 0)) as [->|Hq]; [rewrite Z.sub_0_r; by apply Hkept|].
      destruct (productModel s !! p) as [stock|] eqn:Hs.
      { destruct Hno. exists u, p, qty. by rewrite Hs. }
      simpl in Hst'. unfold processSuccessfulPayment, updateActualStock in Hst'.
      destruct (leaveQueue_cases u p None s); simpl in Hst'; [congruence|].
      rewrite lookup_alter_eq, Hs in Hst'. done.
  - split; [|done]. intros _ (u' & p' & q' & Heq & Hent & _). injection Heq as <- <- <-.
    apply status_inQueue in Hent. congruence.
Qed.

Lemma payment_breaks_conservation_witness :
  wf (exec (op_payment "A" "R" 2) shop1).1
  ∧ ¬ conserved (spec_truth_after (op_payment "A" "R" 2) shop1 truth0)
        (exec (op_payment "A" "R" 2) shop1).1.
Proof.
  destruct (payment_breaks_conservation (op_payment "A" "R" 2) shop1 truth0)
    as [Hwf Hiff].
  - apply wf_shop1.
  - exact I.
  - apply conserved_shop1.
  - split; [exact Hwf|]. intros Hspec. apply Hiff in Hspec. apply Hspec.
    exists "A", "R", 2. split_and!; [reflexivity| |lia|].
    + exists itemA. split; [|reflexivity]. apply list_elem_of_here.
    + exists 1. by vm_compute.
Defined.

(** ** Small stocks never fill the queue *)

Lemma length_le_total l :
  (∀ item, item ∈ l → 1 ≤ QueueItem.quantity item) →
  Z.of_nat (length l) ≤ total_quantity l.
Proof.
  unfold total_quantity. induction l as [|x l IH]; intros Hpos; simpl; [done|].
  assert (1 ≤ QueueItem.quantity x) by apply Hpos, list_elem_of_here.
  assert (Z.of_nat (length l) ≤ foldr (λ item acc, QueueItem.quantity item + acc) 0 l).
  { apply IH. intros y Hy. by apply Hpos, list_elem_of_further. }
  lia.
Qed.

Lemma at_least_one_unit_positive op : at_least_one_unit op → positive_quantity op.
Proof. destruct op; simpl; lia. Qed.

Lemma whole_units_exec op s :
  wf s → whole_units s → at_least_one_unit op → whole_units (exec op s).1.
Proof.
  intros Hwf Hunits Hone p0 item.
  destruct op as [env u p qty email name|u p qid|u p qty|now]; simpl in *.
  - destruct (joinQueue_cases env u p qty email name s); simpl; try apply Hunits.
    + rewrite queue_items_turned_away. apply Hunits.
    + rewrite queue_items_joined. destruct (decide (p = p0)) as [<-|]; [|apply Hunits].
      intros [Hin|Hin%list_elem_of_singleton]%elem_of_app; [by eapply Hunits|by subst].
  - destruct (leaveQueue_cases u p qid s) as [|q i e Hq _ _ _]; simpl; [apply Hunits|].
    rewrite (queue_items_left _ _ _ _ _ _ _ Hq).
    destruct (decide (p = p0)) as [<-|]; [|apply Hunits].
    intros Hin%list_elem_of_delete_inv. by eapply Hunits.
  - unfold processSuccessfulPayment, updateActualStock.
    destruct (leaveQueue_cases u p None s) as [|q i e Hq _ _ _]; simpl; [apply Hunits|].
    rewrite (queue_items_left _ _ _ _ _ _ _ Hq).
    destruct (decide (p = p0)) as [<-|]; [|apply Hunits].
    intros Hin%list_elem_of_delete_inv. by eapply Hunits.
  - rewrite cleanupExpiredItems_eq by done. rewrite (queue_items_swept now s p0 Hwf).
    intros [_ Hin]%list_elem_of_filter. by eapply Hunits.
Qed.

Lemma run_invariants db s :
  (∀ p stock, db !! p = Some stock → 0 ≤ stock) →
  run (mkService [] ∅ db) s →
  wf s ∧ bounded s ∧ whole_units s
  ∧ conserved (λ p, default 0 (db !! p)) s
  ∧ (∀ p, is_Some (db !! p) → is_Some (productModel s !! p))
  ∧ (∀ p q, Map_get p (productQueues s) = Some q →
       ProductQueue.maxQueueSize q
       = Z.min DEFAULT_QUEUE_SIZE (2 * default 0 (db !! p))).
Proof.
  intros Hdb Hrun.
  induction Hrun as [|s op Hrun (Hwf & Hb & Hunits & Hcons & Hdom & Hmax) Hfresh Hone].
  - split_and!; [apply wf_empty|by apply bounded_empty| | |done|done].
    + intros p item Hin. by apply elem_of_nil in Hin.
    + intros p stock. simpl. intros ->. unfold reserved_total, queue_items. simpl.
      unfold total_quantity. simpl. lia.
  - split_and!.
    + by apply wf_exec.
    + by apply bounded_exec, at_least_one_unit_positive.
    + by apply whole_units_exec.
    + by apply conserved_exec.
    + intros p Hp. by apply stock_record_kept, Hdom.
    + intros p q' Hq'. destruct (Map_get p (productQueues s)) as [q|] eqn:Hq.
      * rewrite (exec_keeps_max op s p q q') by done. by apply Hmax.
      * destruct (exec_creates op s p q' Hwf Hq Hq') as (stock & Hs & ->).
        specialize (Hcons p stock Hs). unfold reserved_total, queue_items in Hcons.
        rewrite Hq in Hcons. unfold total_quantity in Hcons. simpl in Hcons.
        by rewrite <- Hcons.
Qed.

(** X11. For a product that starts with a stock between 1 and 9 and no
    queue, the queue never fills, so [joinQueue] never answers with the
    [QueueFull] result, as long as every join asks for one unit or more,
    the operations run one at a time, and only the service writes the
    stock.  Every entry then holds at least one unit, the units held and
    the stock add up to the starting stock, and the capacity of every
    record is twice that stock (at most 10), which the number of entries
    cannot reach.  (Entries of less than one unit, which the checkout
    does not refuse, can fill the queue.) *)
Theorem small_stock_never_full db p T s :
  db !! p = Some T → 1 ≤ T ≤ 9 →
  (∀ p' stock, db !! p' = Some stock → 0 ≤ stock) →
  run (mkService [] ∅ db) s →
  ¬ at_capacity s p
  ∧ ∀ env u qty email name,
      0 < qty → (joinQueue env u p qty email name s).1.1 ≠ QueueFull.
Proof.
  intros HT Hrange Hdb Hrun.
  destruct (run_invariants db s Hdb Hrun) as (Hwf & Hb & Hunits & Hcons & Hdom & Hmax).
  assert (Hfree : ¬ at_capacity s p).
  { intros (q & Hq & Hfull). rewrite (Hmax p q Hq), HT in Hfull. simpl in Hfull.
    destruct (Hdom p) as [stock Hstock]; [by rewrite HT|].
    specialize (Hcons p stock Hstock). cbv beta in Hcons. rewrite HT in Hcons.
    simpl in Hcons.
    pose proof (stock_nonneg s Hb p stock Hstock).
    pose proof (length_le_total (queue_items s p) (Hunits p)) as Hlen.
    rewrite (queue_items_Some _ _ _ Hq) in Hlen. unfold reserved_total in Hcons.
    rewrite (queue_items_Some _ _ _ Hq) in Hcons.
    unfold DEFAULT_QUEUE_SIZE in Hfull. lia. }
  split; [done|]. intros env u qty email name Hpos.
  destruct (joinQueue_cases env u p qty email name s); simpl; try done.
  destruct Hfree. by apply (full_at_capacity s p stock qty).
Qed.

Lemma small_stock_never_full_witness :
  ¬ at_capacity (exec (op_join envA "A" "R" 2 "a@shop" "A") shop0).1 "R"
  ∧ ∀ env u qty email name,
      0 < qty →
      (joinQueue env u "R" qty email name
         (exec (op_join envA "A" "R" 2 "a@shop" "A") shop0).1).1.1 ≠ QueueFull.
Proof.
  apply (small_stock_never_full {["R" := 3]} "R" 3).
  - apply lookup_singleton_eq.
  - lia.
  - intros p' stock. destruct (decide (p' = "R")) as [->|Hne].
    + rewrite lookup_singleton_eq. intros [= <-]. lia.
    + by rewrite lookup_singleton_ne.
  - apply (run_step shop0 shop0 (op_join envA "A" "R" 2 "a@shop" "A")).
    + apply run_start.
    + simpl. apply not_elem_of_nil.
    + simpl. lia.
Defined.

(** ** The checkout endpoint *)

(** X12. A checkout whose body lacks a user id or a product id (absent
    or empty), or whose quantity is absent, zero, negative or above 10,
    is answered with status 400, and the queue service is not touched:
    no state change and no event. *)
Theorem checkout_rejects_bad_request findUser findProduct env gw body s :
  PaymentController.not_string (PaymentController.RequestProps.userId body) = true
  ∨ PaymentController.not_string (PaymentController.RequestProps.productId body) = true
  ∨ (∀ q, PaymentController.RequestProps.quantity body = Some q → q ≤ 0 ∨ 10 < q) →
  ∃ b, PaymentController.initiateCheckout findUser findProduct env gw body s
       = (PaymentController.HttpException b PaymentController.BAD_REQUEST, s, []).
Proof.
  intros Hbad. unfold PaymentController.initiateCheckout.
  destruct (PaymentController.not_string (PaymentController.RequestProps.userId body))
    eqn:Hu; [by eexists|].
  destruct (PaymentController.not_string (PaymentController.RequestProps.productId body))
    eqn:Hp; [by eexists|].
  destruct (PaymentController.not_number (PaymentController.RequestProps.quantity body))
    eqn:Hq; [by eexists|]. simpl.
  destruct Hbad as [?|[?|Hbad]]; [done..|].
  destruct (PaymentController.RequestProps.userId body); [|by eexists].
  destruct (PaymentController.RequestProps.productId body); [|by eexists].
  destruct (PaymentController.RequestProps.quantity body) as [q|]; [|by eexists].
  rewrite decide_True by by apply Hbad. by eexists.
Qed.

Lemma checkout_rejects_bad_request_witness :
  ∃ b, PaymentController.initiateCheckout (λ _, None) (λ _, None) envA
         PaymentController.axios_rejected
         (PaymentController.RequestProps.mk (Some "A") (Some "R") (Some 11)) shop0
       = (PaymentController.HttpException b PaymentController.BAD_REQUEST, shop0, []).
Proof.
  apply (checkout_rejects_bad_request (λ _, None) (λ _, None) envA
           PaymentController.axios_rejected
           (PaymentController.RequestProps.mk (Some "A") (Some "R") (Some 11)) shop0).
  right. right. simpl. intros q [= <-]. lia.
Defined.

(** X13. A checkout reaches the queue only through [joinQueue], and
    only for a request with a quantity above 0 and at most 10 (the
    guard [quantity <= 0 || quantity > 10]), a known user and product,
    and a stock of the requested product at or below the low-stock
    threshold.  In every other case, a direct purchase that succeeds
    included, the state of the service and the stock are as before and
    no event is emitted. *)
Theorem checkout_engages_queue_only_when_low findUser findProduct env gw body s :
  let '(_, s', evs) :=
    PaymentController.initiateCheckout findUser findProduct env gw body s in
  (s' = s ∧ evs = [])
  ∨ ∃ uid pid qty user product,
      PaymentController.RequestProps.userId body = Some uid
      ∧ PaymentController.RequestProps.productId body = Some pid
      ∧ PaymentController.RequestProps.quantity body = Some qty
      ∧ 0 < qty ∧ qty ≤ 10
      ∧ findUser uid = Some user ∧ findProduct pid = Some product
      ∧ shouldActivateQueue pid s = true
      ∧ (s', evs)
        = ((joinQueue env (PaymentController.user_key user)
              (PaymentController.product_id product) qty
              (PaymentController.user_email user)
              (PaymentController.user_name user) s).1.2,
           (joinQueue env (PaymentController.user_key user)
              (PaymentController.product_id product) qty
              (PaymentController.user_email user)
              (PaymentController.user_name user) s).2).
Proof.
  unfold PaymentController.initiateCheckout.
  destruct (_ || _ || _); [by left|].
  destruct (PaymentController.RequestProps.userId body) as [uid|]; [|by left].
  destruct (PaymentController.RequestProps.productId body) as [pid|]; [|by left].
  destruct (PaymentController.RequestProps.quantity body) as [qty|]; [|by left].
  destruct (decide _) as [|Hrange]; [by left|].
  destruct (findUser uid) as [user|] eqn:Huser; [|by left].
  destruct (findProduct pid) as [product|] eqn:Hproduct; [|by left].
  destruct (shouldActivateQueue pid s) eqn:Hlow; [|by left].
  unfold PaymentController.handleQueuedCheckout.
  destruct (joinQueue env _ _ qty _ _ s) as [[r s1] evs1] eqn:Hjoin.
  assert (0 < qty) by lia. assert (qty ≤ 10) by lia.
  destruct (negb (success r)); [|destruct (PaymentController.initiateCardPayment gw)];
    right; exists uid, pid, qty, user, product; by rewrite Hjoin.
Qed.

(** X14. When the join of a queued checkout is refused, the checkout
    answers with status 409, passes the join's message on as [details],
    and sets [isQueueFull] exactly when the join's result is
    [QueueFull]; the service is left as the join left it. *)
Theorem queued_checkout_refusal env gw user product qty s :
  success (joinQueue env (PaymentController.user_key user)
             (PaymentController.product_id product) qty
             (PaymentController.user_email user)
             (PaymentController.user_name user) s).1.1 = false →
  let '(r, s1, evs) :=
    joinQueue env (PaymentController.user_key user)
      (PaymentController.product_id product) qty
      (PaymentController.user_email user) (PaymentController.user_name user) s in
  ∃ flag,
    PaymentController.handleQueuedCheckout env gw user product qty s
    = (PaymentController.HttpException
         (PaymentController.body_join_refused "Unable to join queue" (message r) flag)
         PaymentController.CONFLICT, s1, evs)
    ∧ (flag = true ↔ r = QueueFull).
Proof.
  unfold PaymentController.handleQueuedCheckout.
  destruct (joinQueue_cases env (PaymentController.user_key user)
              (PaymentController.product_id product) qty
              (PaymentController.user_email user)
              (PaymentController.user_name user) s); simpl; intros Hfail;
    try discriminate Hfail;
    eexists; (split; [reflexivity|]); by vm_compute.
Qed.

Lemma queued_checkout_refusal_witness :
  let '(r, s1, evs) :=
    joinQueue (mkJoinEnv "q2" 200 200 200)
      (PaymentController.user_key (PaymentController.mkUser "B" "b0" "b@shop" "B"))
      (PaymentController.product_id (PaymentController.mkProduct "R" "rice" 5 1)) 2
      (PaymentController.user_email (PaymentController.mkUser "B" "b0" "b@shop" "B"))
      (PaymentController.user_name (PaymentController.mkUser "B" "b0" "b@shop" "B"))
      shop1 in
  ∃ flag,
    PaymentController.handleQueuedCheckout (mkJoinEnv "q2" 200 200 200)
      PaymentController.axios_rejected
      (PaymentController.mkUser "B" "b0" "b@shop" "B")
      (PaymentController.mkProduct "R" "rice" 5 1) 2 shop1
    = (PaymentController.HttpException
         (PaymentController.body_join_refused "Unable to join queue" (message r) flag)
         PaymentController.CONFLICT, s1, evs)
    ∧ (flag = true ↔ r = QueueFull).
Proof.
  apply (queued_checkout_refusal (mkJoinEnv "q2" 200 200 200)
           PaymentController.axios_rejected
           (PaymentController.mkUser "B" "b0" "b@shop" "B")
           (PaymentController.mkProduct "R" "rice" 5 1) 2 shop1).
  by vm_compute.
Defined.

(** X15. A queued checkout does not undo the reservation when the
    payment cannot be initiated.  If the join is admitted and the gateway
    call is rejected or answers with a status other than 200, the
    checkout fails with status 500 while the entry stays in the FIFO and
    the stock stays reduced by the quantity. *)
Theorem queued_checkout_payment_failure env gw user product qty s stock :
  wf s →
  productModel s !! PaymentController.product_id product = Some stock →
  0 < qty → qty ≤ stock →
  ¬ has_entry s (PaymentController.user_key user) (PaymentController.product_id product) →
  ¬ at_capacity s (PaymentController.product_id product) →
  (∀ url, gw ≠ PaymentController.axios_response 200 url) →
  let '(r, s', evs) := PaymentController.handleQueuedCheckout env gw user product qty s in
  r = PaymentController.HttpException
        (PaymentController.body_text "Payment initiation failed")
        PaymentController.INTERNAL_SERVER_ERROR
  ∧ has_entry s' (PaymentController.user_key user) (PaymentController.product_id product)
  ∧ productModel s' !! PaymentController.product_id product = Some (stock - qty)
  ∧ evs = [queue_joined (PaymentController.user_key user)
             (PaymentController.product_id product) (generateQueueId env)
             (Z.of_nat (length (queue_items s (PaymentController.product_id product))) + 1)].
Proof.
  intros Hwf Hstock Hpos Hle Hout Hcap Hgw.
  unfold PaymentController.handleQueuedCheckout.
  rewrite (joinQueue_admitted env _ _ qty _ _ s stock) by done. simpl.
  assert (Hpay : PaymentController.initiateCardPayment gw
                 = PaymentController.HttpException
                     (PaymentController.body_text "Payment initiation failed")
                     PaymentController.INTERNAL_SERVER_ERROR).
  { destruct gw as [status url|]; simpl; [|done].
    destruct (decide (status = 200)) as [->|]; [by destruct (Hgw url)|done]. }
  rewrite Hpay. split_and!; [done| |simpl; by rewrite lookup_alter_eq, Hstock|done].
  eexists. rewrite queue_items_joined, decide_True by done.
  split; [apply elem_of_app; right; apply list_elem_of_here|done].
Qed.

Lemma queued_checkout_payment_failure_witness :
  let '(r, s', evs) :=
    PaymentController.handleQueuedCheckout (mkJoinEnv "q2" 200 200 200)
      (PaymentController.axios_response 502 "")
      (PaymentController.mkUser "B" "b0" "b@shop" "B")
      (PaymentController.mkProduct "R" "rice" 5 1) 1 shop1 in
  r = PaymentController.HttpException
        (PaymentController.body_text "Payment initiation failed")
        PaymentController.INTERNAL_SERVER_ERROR
  ∧ has_entry s'
      (PaymentController.user_key (PaymentController.mkUser "B" "b0" "b@shop" "B"))
      (PaymentController.product_id (PaymentController.mkProduct "R" "rice" 5 1))
  ∧ productModel s' !! PaymentController.product_id (PaymentController.mkProduct "R" "rice" 5 1)
    = Some (1 - 1)
  ∧ evs = [queue_joined
             (PaymentController.user_key (PaymentController.mkUser "B" "b0" "b@shop" "B"))
             (PaymentController.product_id (PaymentController.mkProduct "R" "rice" 5 1))
             (generateQueueId (mkJoinEnv "q2" 200 200 200))
             (Z.of_nat (length (queue_items shop1
                (PaymentController.product_id (PaymentController.mkProduct "R" "rice" 5 1))))
              + 1)].
Proof.
  apply (queued_checkout_payment_failure (mkJoinEnv "q2" 200 200 200)
           (PaymentController.axios_response 502 "")
           (PaymentController.mkUser "B" "b0" "b@shop" "B")
           (PaymentController.mkProduct "R" "rice" 5 1) 1 shop1 1).
  - apply wf_shop1.
  - by vm_compute.
  - lia.
  - lia.
  - apply shop1_B_absent.
  - apply shop1_not_full.
  - intros url [=].
Defined.

(** ** The status and leave endpoints *)

(** X16. For a user whose first entry in the FIFO is [e], the status
    endpoint reports the entry's position and [expiresAt], and in its
    message the remaining time as whole minutes, rounded up.  While the
    entry is live this is at least 1.  An entry that has expired but has
    not been swept yet is still reported as in queue, with 0 or a
    negative number of minutes. *)
Theorem status_endpoint_minutes now u p s i e :
  queue_items s p !! i = Some e → QueueItem.userId e = u →
  (∀ j y, queue_items s p !! j = Some y → (j < i)%nat → QueueItem.userId y ≠ u) →
  QueueItem.expiresAt e ≠ 0 →
  let m := PaymentController.ceil_div (QueueItem.expiresAt e - now) 60000 in
  PaymentController.getQueueStatus now u p s
  = PaymentController.QueueStatusResponse.mk true (Some (Z.of_nat i + 1))
      (Some (calculateEstimatedWaitTime (Z.of_nat i + 1)))
      (Some (QueueItem.expiresAt e))
      ("You are in position " +:+ pretty (Z.of_nat i + 1)
       +:+ ". Time remaining: " +:+ pretty m +:+ " minutes")
  ∧ (QueueItem.expiresAt e ≤ now → m ≤ 0)
  ∧ (now < QueueItem.expiresAt e →
     1 ≤ m ∧ 60000 * (m - 1) < QueueItem.expiresAt e - now ≤ 60000 * m).
Proof.
  intros Hi Hu Hfirst Hnz. cbv zeta. split_and!.
  - unfold PaymentController.getQueueStatus.
    rewrite (status_found u p s i e) by done. simpl.
    by rewrite decide_False.
  - unfold PaymentController.ceil_div. intros Hexp.
    assert (0 ≤ (- (QueueItem.expiresAt e - now)) / 60000)
      by (apply Z.div_pos; lia).
    lia.
  - unfold PaymentController.ceil_div. intros Hlive.
    pose proof (Z.div_mod (- (QueueItem.expiresAt e - now)) 60000 ltac:(lia)) as Hdm.
    pose proof (Z.mod_pos_bound (- (QueueItem.expiresAt e - now)) 60000 ltac:(lia)).
    lia.
Qed.

Lemma status_endpoint_minutes_witness :
  let m := PaymentController.ceil_div (QueueItem.expiresAt itemA - 900130) 60000 in
  PaymentController.getQueueStatus 900130 "A" "R" shop1
  = PaymentController.QueueStatusResponse.mk true (Some (Z.of_nat 0 + 1))
      (Some (calculateEstimatedWaitTime (Z.of_nat 0 + 1)))
      (Some (QueueItem.expiresAt itemA))
      ("You are in position " +:+ pretty (Z.of_nat 0 + 1)
       +:+ ". Time remaining: " +:+ pretty m +:+ " minutes")
  ∧ (QueueItem.expiresAt itemA ≤ 900130 → m ≤ 0)
  ∧ (900130 < QueueItem.expiresAt itemA →
     1 ≤ m ∧ 60000 * (m - 1) < QueueItem.expiresAt itemA - 900130 ≤ 60000 * m).
Proof.
  apply (status_endpoint_minutes 900130 "A" "R" shop1 0%nat itemA).
  - by vm_compute.
  - done.
  - intros j y _ Hlt. lia.
  - by vm_compute.
Defined.

(** X17. The leave endpoint answers a user who has an entry with
    success, and the same request sent again with status 400 and no
    further effect; a user without an entry gets status 400 at once, the
    service untouched. *)
Theorem leave_endpoint_answers u p s :
  wf s →
  let '(r1, s1, evs1) := PaymentController.leaveQueue u p s in
  (has_entry s u p →
     r1 = PaymentController.returned "Successfully left the queue"
     ∧ PaymentController.leaveQueue u p s1
       = (PaymentController.HttpException
            (PaymentController.body_text "Failed to leave queue or not in queue")
            PaymentController.BAD_REQUEST, s1, []))
  ∧ (¬ has_entry s u p →
     r1 = PaymentController.HttpException
            (PaymentController.body_text "Failed to leave queue or not in queue")
            PaymentController.BAD_REQUEST
     ∧ s1 = s ∧ evs1 = []).
Proof.
  intros Hwf. unfold PaymentController.leaveQueue at 1.
  destruct (leaveQueue_cases u p None s) as [Hno|q i e Hq Hi [Hu _] _]; simpl.
  - split; [|done]. intros (item & Hin & Hitem). by destruct (Hno item).
  - split.
    + intros _. split; [done|]. unfold PaymentController.leaveQueue.
      by rewrite leaveQueue_absent by by apply left_state_no_entry.
    + intros Hno. destruct Hno. exists e. split; [|done].
      rewrite (queue_items_Some _ _ _ Hq). by eapply list_elem_of_lookup_2.
Qed.

Lemma leave_endpoint_answers_witness :
  let '(r1, s1, evs1) := PaymentController.leaveQueue "A" "R" shop1 in
  (has_entry shop1 "A" "R" →
     r1 = PaymentController.returned "Successfully left the queue"
     ∧ PaymentController.leaveQueue "A" "R" s1
       = (PaymentController.HttpException
            (PaymentController.body_text "Failed to leave queue or not in queue")
            PaymentController.BAD_REQUEST, s1, []))
  ∧ (¬ has_entry shop1 "A" "R" →
     r1 = PaymentController.HttpException
            (PaymentController.body_text "Failed to leave queue or not in queue")
            PaymentController.BAD_REQUEST
     ∧ s1 = shop1 ∧ evs1 = []).
Proof. apply (leave_endpoint_answers "A" "R" shop1). apply wf_shop1. Defined.

(** ** Positions and order *)

(** X18. In a consistent state the position [getQueueStatus] reports
    for the user of any entry is that entry's index in the FIFO plus
    one, so the entries of a FIFO of length [n] hold the positions 1 to
    [n], one each. *)
Theorem status_position_is_index s p i e :
  wf s →
  queue_items s p !! i = Some e →
  getQueueStatus (QueueItem.userId e) p s
  = mkQueueStatus true (Some (Z.of_nat i + 1))
      (Some (calculateEstimatedWaitTime (Z.of_nat i + 1)))
      (Some (QueueItem.expiresAt e)).
Proof.
  intros Hwf Hi. apply status_found; [done..|].
  intros j y Hj Hlt Hu.
  assert (j = i); [|lia].
  apply (NoDup_lookup _ _ _ (QueueItem.userId e) (wf_users s Hwf p));
    rewrite list_lookup_fmap.
  - rewrite Hj. simpl. by rewrite Hu.
  - by rewrite Hi.
Qed.

Lemma status_position_is_index_witness :
  getQueueStatus
    (QueueItem.userId (QueueItem.mk "r3" "U3" "R" 1 100 900100 "u@shop" "U3" 900100))
    "R" shop_full
  = mkQueueStatus true (Some (Z.of_nat 3 + 1))
      (Some (calculateEstimatedWaitTime (Z.of_nat 3 + 1)))
      (Some (QueueItem.expiresAt
               (QueueItem.mk "r3" "U3" "R" 1 100 900100 "u@shop" "U3" 900100))).
Proof.
  apply (status_position_is_index shop_full "R" 3%nat).
  - apply wf_shop_full.
  - by vm_compute.
Defined.

Lemma find_app_miss {A} (P : A → Prop) `{∀ x, Decision (P x)} (l : list A) x :
  ¬ P x → list_find P (l ++ [x]) = list_find P l.
Proof.
  intros Hx. induction l as [|y l IH]; simpl.
  - by rewrite decide_False.
  - destruct (decide (P y)); [done|]. by rewrite IH.
Qed.

(** X19. A join never moves anyone else.  Whatever its outcome, the
    answer of [getQueueStatus] for every other user, on every product, is
    the same after the join as before. *)
Theorem join_keeps_other_positions env u p qty email name s u' p' :
  u' ≠ u →
  getQueueStatus u' p' (joinQueue env u p qty email name s).1.2
  = getQueueStatus u' p' s.
Proof.
  intros Hne.
  destruct (joinQueue_cases env u p qty email name s); simpl; try done.
  - unfold getQueueStatus. simpl. rewrite Map_get_set.
    destruct (decide (p = p')) as [<-|]; [|done].
    unfold target_queue. by destruct (Map_get p (productQueues s)).
  - unfold getQueueStatus. simpl. rewrite Map_get_set.
    destruct (decide (p = p')) as [<-|]; [|done]. simpl.
    rewrite find_app_miss by (simpl; congruence).
    unfold queue_items. by destruct (Map_get p (productQueues s)).
Qed.

Lemma join_keeps_other_positions_witness :
  getQueueStatus "A" "R"
    (joinQueue (mkJoinEnv "q2" 200 200 200) "B" "R" 1 "b@shop" "B" shop1).1.2
  = getQueueStatus "A" "R" shop1.
Proof.
  by apply (join_keeps_other_positions (mkJoinEnv "q2" 200 200 200)
              "B" "R" 1 "b@shop" "B" shop1 "A" "R").
Defined.

(** X20. No operation reorders a FIFO or inserts anywhere but at the
    tail.  After any operation on a consistent state, the FIFO of every
    product is either the old one with some entries removed, the rest in
    their order, or the old one with one new entry appended. *)
Theorem fifo_order_kept op s p :
  wf s →
  queue_items (exec op s).1 p `sublist_of` queue_items s p
  ∨ ∃ e, queue_items (exec op s).1 p = queue_items s p ++ [e].
Proof.
  intros Hwf.
  destruct op as [env u p0 qty email name|u p0 qid|u p0 qty|now]; simpl.
  - destruct (joinQueue_cases env u p0 qty email name s); simpl; try by left.
    + left. by rewrite queue_items_turned_away.
    + rewrite queue_items_joined. destruct (decide (p0 = p)) as [->|]; [|by left].
      right. by eexists.
  - left. destruct (leaveQueue_cases u p0 qid s) as [|q i e Hq _ _ _]; simpl; [done|].
    rewrite (queue_items_left _ _ _ _ _ _ _ Hq).
    destruct (decide (p0 = p)) as [->|]; [apply sublist_delete|done].
  - left. unfold processSuccessfulPayment, updateActualStock.
    destruct (leaveQueue_cases u p0 None s) as [|q i e Hq _ _ _]; simpl; [done|].
    rewrite (queue_items_left _ _ _ _ _ _ _ Hq).
    destruct (decide (p0 = p)) as [->|]; [apply sublist_delete|done].
  - left. rewrite cleanupExpiredItems_eq by done.
    rewrite (queue_items_swept now s p Hwf). apply sublist_filter.
Qed.

Lemma fifo_order_kept_witness :
  queue_items (exec (op_leave "U3" "R" None) shop_full).1 "R"
    `sublist_of` queue_items shop_full "R"
  ∨ ∃ e, queue_items (exec (op_leave "U3" "R" None) shop_full).1 "R"
         = queue_items shop_full "R" ++ [e].
Proof. apply (fifo_order_kept (op_leave "U3" "R" None) shop_full "R"), wf_shop_full. Defined.

(** X21. The events of a sweep tick on a consistent state come product
    by product, in the order of the queue table: for each product one
    [queue.timeout] per expired entry, in FIFO order, then, only if an
    entry expired, one [queue.position.updated] per entry that remains,
    with its new index plus one. *)
Theorem sweep_event_order now s :
  wf s →
  (cleanupExpiredItems now s).2
  = productQueues s ≫= λ entry,
      ((λ e, queue_timeout (QueueItem.userId e) entry.1 (QueueItem.id e))
         <$> filter (expired now) (ProductQueue.items entry.2))
      ++ (if decide (filter (expired now) (ProductQueue.items entry.2) = []) then []
          else imap (λ index item,
                       queue_position_updated (QueueItem.userId item)
                         (QueueItem.productId item) (QueueItem.id item)
                         (Z.of_nat index + 1)
                         (calculateEstimatedWaitTime (Z.of_nat index + 1)))
                    (filter (live now) (ProductQueue.items entry.2))).
Proof.
  intros Hwf. rewrite cleanupExpiredItems_eq by done. simpl.
  apply list_bind_ext; [|done]. intros [k q]. unfold swept_events, expired_of, timeouts.
  simpl. f_equal.
  destruct (decide (0 < length (filter (expired now) (ProductQueue.items q)))%nat)
    as [Hlen|Hlen],
    (decide (filter (expired now) (ProductQueue.items q) = [])) as [Hnil|Hnil];
    try done.
  - rewrite Hnil in Hlen. simpl in Hlen. lia.
  - destruct Hlen. destruct (filter (expired now) (ProductQueue.items q)); [done|].
    simpl. lia.
Qed.

Lemma sweep_event_order_witness :
  (cleanupExpiredItems 900100 shop1).2
  = productQueues shop1 ≫= λ entry,
      ((λ e, queue_timeout (QueueItem.userId e) entry.1 (QueueItem.id e))
         <$> filter (expired 900100) (ProductQueue.items entry.2))
      ++ (if decide (filter (expired 900100) (ProductQueue.items entry.2) = []) then []
          else imap (λ index item,
                       queue_position_updated (QueueItem.userId item)
                         (QueueItem.productId item) (QueueItem.id item)
                         (Z.of_nat index + 1)
                         (calculateEstimatedWaitTime (Z.of_nat index + 1)))
                    (filter (live 900100) (ProductQueue.items entry.2))).
Proof. apply (sweep_event_order 900100 shop1), wf_shop1. Defined.
